(** * docker-prune: the cleanup executor and the cycle scheduler of [main.go]

    The development follows the layout of the program.  The packages that
    [main.go] imports come first, reduced to the operations it calls
    ([fmt], [logrus], [filters], [client]); then the executor [runPrune] with
    its four prune functions and [cloneArgs]; then the coordinating loop of
    [main] as a transition system over explicit scheduler choices. *)

From Stdlib Require Import ZArith Lia Ascii.
From stdpp Require Import base option list strings pretty gmap relations.

Local Open Scope Z_scope.

(** ** Go base types *)

Module Go.

(** [error]: an error value is represented by the text that its [Error()]
    method returns. *)
Definition error : Type := string.

(** [uint64] values are naturals below [2^64]; addition wraps around. *)
Definition uint64_modulus : N := (2 ^ 64)%N.
Definition uint64_add (a b : N) : N := ((a + b) mod uint64_modulus)%N.

(** [int64] values (here: [time.Duration], in nanoseconds) are integers in
    [-2^63, 2^63); arithmetic wraps around. *)
Definition int64_wrap (z : Z) : Z := (z + 2 ^ 63) mod 2 ^ 64 - 2 ^ 63.
Definition int64_range (z : Z) : Prop := - 2 ^ 63 <= z < 2 ^ 63.
Definition int64_sub (a b : Z) : Z := int64_wrap (a - b).

End Go.

(** ** package time *)

Module time.
Definition Nanosecond : Z := 1.
Definition Second : Z := 1000000000.
Definition Hour : Z := 3600 * Second.
End time.

(** ** package fmt: [Sprint] and [Sprintf] on the operands [main.go] passes *)

Module fmt.

Inductive operand : Type :=
| Str (s : string)
| Err (e : Go.error)
| Bool (b : bool)
| Int (n : Z)
| Uint64 (n : N).

Definition is_string (o : operand) : bool :=
  match o with Str _ => true | _ => false end.

(** The default format, which is also what [%d] prints for the integer
    operands. *)
Definition format_v (o : operand) : string :=
  match o with
  | Str s => s
  | Err e => e
  | Bool b => if b then "true" else "false"
  | Int n => pretty n
  | Uint64 n => pretty n
  end.

(** [Sprint]: operands in their default format; a space is added between
    two operands when neither is a string. *)
Fixpoint Sprint_after (prev : operand) (os : list operand) : string :=
  match os with
  | [] => ""
  | o :: os' =>
      (if is_string prev || is_string o then "" else " ")
        +:+ format_v o +:+ Sprint_after o os'
  end.

Definition Sprint (os : list operand) : string :=
  match os with
  | [] => ""
  | o :: os' => format_v o +:+ Sprint_after o os'
  end.

Definition is_verb (c : ascii) : bool :=
  bool_decide (c = "v"%char) || bool_decide (c = "d"%char).

(** [Sprintf] for the verbs [%v] and [%d]: each verb consumes the next
    operand; a verb without operand prints Go's [%!v(MISSING)]. *)
Fixpoint Sprintf (format : string) (os : list operand) : string :=
  match format with
  | EmptyString => ""
  | String c rest =>
      match rest with
      | String v rest' =>
          if bool_decide (c = "%"%char) && is_verb v then
            match os with
            | o :: os' => format_v o +:+ Sprintf rest' os'
            | [] => String c (String "!" (String v "(MISSING)")) +:+ Sprintf rest' []
            end
          else String c (Sprintf rest os)
      | EmptyString => String c EmptyString
      end
  end.

(** The formatting functions are not unfolded by simplification. *)
Arguments Sprint : simpl never.
Arguments Sprintf : simpl never.
Arguments format_v : simpl never.

End fmt.

(** ** package logrus: a logger at the default level, which emits all four
    severities used by [main.go] *)

Module logrus.

Inductive Level : Type := FatalLevel | ErrorLevel | WarnLevel | InfoLevel.

Record Entry : Type := mkEntry { level : Level; message : string }.

(** The methods without [f] format their arguments with [fmt.Sprint], the
    ones with [f] with [fmt.Sprintf]. *)
Definition Info (args : list fmt.operand) : Entry :=
  mkEntry InfoLevel (fmt.Sprint args).
Definition Warn (args : list fmt.operand) : Entry :=
  mkEntry WarnLevel (fmt.Sprint args).
Definition Error (args : list fmt.operand) : Entry :=
  mkEntry ErrorLevel (fmt.Sprint args).
Definition Infof (format : string) (args : list fmt.operand) : Entry :=
  mkEntry InfoLevel (fmt.Sprintf format args).
Definition Errorf (format : string) (args : list fmt.operand) : Entry :=
  mkEntry ErrorLevel (fmt.Sprintf format args).
Definition Fatalf (format : string) (args : list fmt.operand) : Entry :=
  mkEntry FatalLevel (fmt.Sprintf format args).

End logrus.

(** ** The Go standard library functions that [filters] relies on

    [encoding/json] and the Unicode-aware [strings.ToLower] and
    [strings.TrimSpace] are taken as an interface: the program only needs
    that they are functions. *)

Abbreviation Fields := (gmap string (gmap string bool)).

Class GoStdlib : Type := {
  json_Marshal : Fields → string + Go.error;
  json_Decode : string → Fields + Go.error;
  json_Decode_slices : string → gmap string (list string) + Go.error;
  strings_ToLower : string → string;
  strings_TrimSpace : string → string;
}.

(** [strings.Contains s "="] and [strings.SplitN s "=" 2]. *)
Fixpoint contains_eq (s : string) : bool :=
  match s with
  | EmptyString => false
  | String c rest => bool_decide (c = "="%char) || contains_eq rest
  end.

Fixpoint split_eq (s : string) : string * string :=
  match s with
  | EmptyString => ("", "")
  | String c rest =>
      if bool_decide (c = "="%char) then ("", rest)
      else let '(name, value) := split_eq rest in (String c name, value)
  end.

(** ** A state monad for the effectful code *)

Definition State (S A : Type) : Type := S → A * S.

Global Instance State_ret {S} : MRet (State S) := λ A a s, (a, s).
Global Instance State_bind {S} : MBind (State S) :=
  λ A B f m s, let '(a, s') := m s in f a s'.

(** ** package filters

    [filters.Args] is a struct holding one Go map
    ([map[string]map[string]bool]).  A Go map is a reference: copies of an
    [Args] value share it.  The maps live in a store, and an [Args] holds the
    position of its map. *)

Record Args : Type := mkArgs { fields : nat }.

Abbreviation Heap := (list Fields).

Module filters.

Definition ErrBadFormat : Go.error :=
  "bad format of filter (expected name=value)".

(** The map behind an [Args] value. *)
Definition contents (h : Heap) (a : Args) : Fields :=
  default ∅ (h !! fields a).

Definition NewArgs : State Heap Args :=
  λ h, (mkArgs (length h), h ++ [∅]).

(** [Args{m}] for a map [m] that was just built. *)
Definition mk (m : Fields) : State Heap Args :=
  λ h, (mkArgs (length h), h ++ [m]).

Definition fields_add (name value : string) (m : Fields) : Fields :=
  match m !! name with
  | Some values => <[name := <[value := true]> values]> m
  | None => <[name := {[value := true]}]> m
  end.

(** [a.Add(name, value)] updates the shared map in place. *)
Definition Add (a : Args) (name value : string) : State Heap unit :=
  λ h, (tt, alter (fields_add name value) (fields a) h).

Definition Len (a : Args) : State Heap nat :=
  λ h, (size (contents h a), h).

Section with_stdlib.
Context {stdlib : GoStdlib}.

Definition ParseFlag (arg : string) (prev : Args)
  : State Heap (Args * option Go.error) :=
  if bool_decide (arg = "") then mret (prev, None)
  else if negb (contains_eq arg) then mret (prev, Some ErrBadFormat)
  else
    let f := split_eq arg in
    let name := strings_ToLower (strings_TrimSpace f.1) in
    let value := strings_TrimSpace f.2 in
    _ ← Add prev name value;
    mret (prev, None).

Definition ToParam (a : Args) : State Heap (string * option Go.error) :=
  n ← Len a;
  if bool_decide (n = 0%nat) then mret ("", None)
  else λ h,
    match json_Marshal (contents h a) with
    | inr err => (("", Some err), h)
    | inl buf => ((buf, None), h)
    end.

Definition deprecatedArgs (d : gmap string (list string)) : Fields :=
  (λ v : list string, foldr (λ vv values, <[vv := true]> values) ∅ v) <$> d.

Definition FromParam (p : string) : State Heap (Args * option Go.error) :=
  if bool_decide (p = "") then a ← NewArgs; mret (a, None)
  else
    match json_Decode p with
    | inl m => a ← mk m; mret (a, None)
    | inr err =>
        match json_Decode_slices p with
        | inl deprecated => a ← mk (deprecatedArgs deprecated); mret (a, None)
        | inr _ => a ← NewArgs; mret (a, Some err)
        end
    end.

End with_stdlib.

End filters.

(** ** package client: the engine API [main.go] uses *)

Record Context : Type := mkContext { deadline : Z }.

Record ContainersPruneReport : Type :=
  { ContainersDeleted : list string; c_SpaceReclaimed : N }.
Record ImagesPruneReport : Type :=
  { ImagesDeleted : list (string * string); i_SpaceReclaimed : N }.
Record NetworksPruneReport : Type :=
  { NetworksDeleted : list string }.
Record VolumesPruneReport : Type :=
  { VolumesDeleted : list string; v_SpaceReclaimed : N }.

(** [client.APIClient], restricted to the four prune methods.  [E] is the state
    of the engine behind the connection; a method sees the context and the
    filter map as it is at the time of the call. *)
Class APIClient (E : Type) : Type := {
  ContainersPrune : Context → Fields → E → (ContainersPruneReport + Go.error) * E;
  ImagesPrune : Context → Fields → E → (ImagesPruneReport + Go.error) * E;
  NetworksPrune : Context → Fields → E → (NetworksPruneReport + Go.error) * E;
  VolumesPrune : Context → Fields → E → (VolumesPruneReport + Go.error) * E;
}.

(** ** What an observer sees: engine calls and log lines, in order *)

Inductive Op : Type := OpContainers | OpImages | OpNetworks | OpVolumes.

Inductive Report : Type :=
| RContainers (r : ContainersPruneReport)
| RImages (r : ImagesPruneReport)
| RNetworks (r : NetworksPruneReport)
| RVolumes (r : VolumesPruneReport).

Inductive Event : Type :=
| ECall (op : Op) (a : Args) (received : Fields) (reply : Report + Go.error)
| ELog (e : logrus.Entry).

(** The reply of a method, as the observer records it. *)
Definition reply_of {R} (wrap : R → Report) (r : R + Go.error) : Report + Go.error :=
  match r with inl x => inl (wrap x) | inr err => inr err end.

Record World (E : Type) : Type := mkWorld {
  heap : Heap;
  engine : E;
  trace : list Event;
}.
Arguments mkWorld {E}.
Arguments heap {E}.
Arguments engine {E}.
Arguments trace {E}.

Section world.
Context {E : Type}.

Definition emit (ev : Event) : State (World E) unit :=
  λ w, (tt, mkWorld (heap w) (engine w) (trace w ++ [ev])).

Definition log (e : logrus.Entry) : State (World E) unit := emit (ELog e).

(** Run an operation of [filters] on the store of the world. *)
Definition on_heap {A} (m : State Heap A) : State (World E) A :=
  λ w, let '(a, h) := m (heap w) in (a, mkWorld h (engine w) (trace w)).

(** Call a method of the engine client with the filter [a]. *)
Definition call {R} (op : Op) (wrap : R → Report)
    (method : Context → Fields → E → (R + Go.error) * E)
    (ctx : Context) (a : Args) : State (World E) (R + Go.error) :=
  λ w,
    let received := filters.contents (heap w) a in
    let '(r, e) := method ctx received (engine w) in
    (r, mkWorld (heap w) e (trace w ++ [ECall op a received (reply_of wrap r)])).

End world.

(** ** The cleanup executor: [cloneArgs], the prune functions, [runPrune] *)

Section executor.
Context {stdlib : GoStdlib} {E : Type} {cli : APIClient E}.

(** What a prune function returns: [(uint64, string, error)]. *)
Definition PruneResult : Type := N * string * option Go.error.

Definition PruneFunc : Type :=
  Context → bool → Args → State (World E) PruneResult.

(** Both errors are dropped ([s, _ :=] and [newArgs, _ :=]). *)
Definition cloneArgs (pruneFilter : Args) : State Heap Args :=
  '(s, _) ← filters.ToParam pruneFilter;
  '(newArgs, _) ← filters.FromParam s;
  mret newArgs.

Definition pruneContainers : PruneFunc := λ ctx all pruneFilter,
  r ← call OpContainers RContainers ContainersPrune ctx pruneFilter;
  match r with
  | inr err => mret (0%N, "", Some err)
  | inl report =>
      mret (c_SpaceReclaimed report,
            fmt.Sprintf "Deleted Containers: %d, Reclaimed Space: %d"
              [fmt.Int (Z.of_nat (length (ContainersDeleted report)));
               fmt.Uint64 (c_SpaceReclaimed report)],
            None)
  end.

Definition pruneNetworks : PruneFunc := λ ctx all pruneFilter,
  r ← call OpNetworks RNetworks NetworksPrune ctx pruneFilter;
  match r with
  | inr err => mret (0%N, "", Some err)
  | inl report =>
      mret (0%N,
            fmt.Sprintf "Deleted Networks: %d"
              [fmt.Int (Z.of_nat (length (NetworksDeleted report)))],
            None)
  end.

Definition pruneVolumes : PruneFunc := λ ctx all pruneFilter,
  r ← call OpVolumes RVolumes VolumesPrune ctx pruneFilter;
  match r with
  | inr err => mret (0%N, "", Some err)
  | inl report =>
      mret (v_SpaceReclaimed report,
            fmt.Sprintf "Deleted Volumes: %d, Reclaimed Space: %d"
              [fmt.Int (Z.of_nat (length (VolumesDeleted report)));
               fmt.Uint64 (v_SpaceReclaimed report)],
            None)
  end.

(** [fmt.Sprintf("%v", !all)] *)
Definition dangling_value (all : bool) : string :=
  fmt.Sprintf "%v" [fmt.Bool (negb all)].

Definition pruneImages : PruneFunc := λ ctx all pruneFilter,
  newArgs ← on_heap (cloneArgs pruneFilter);
  _ ← on_heap (filters.Add newArgs "dangling" (dangling_value all));
  r ← call OpImages RImages ImagesPrune ctx newArgs;
  match r with
  | inr err => mret (0%N, "", Some err)
  | inl report =>
      mret (i_SpaceReclaimed report,
            fmt.Sprintf "Deleted Images: %d, Reclaimed Space: %d"
              [fmt.Int (Z.of_nat (length (ImagesDeleted report)));
               fmt.Uint64 (i_SpaceReclaimed report)],
            None)
  end.

Definition pruneFuncs : list PruneFunc :=
  [pruneContainers; pruneImages; pruneNetworks; pruneVolumes].

(** [logger.Infof("Total reclaimed space: %d", total)] *)
Definition total_entry (total : N) : logrus.Entry :=
  logrus.Infof "Total reclaimed space: %d" [fmt.Uint64 total].

Definition report_total (total : N) : State (World E) unit :=
  log (total_entry total).

(** The [for i := range pruneFuncs] loop with its accumulator, followed by
    the line that reports the total. *)
Fixpoint prune_loop (fs : list PruneFunc) (total : N)
    (ctx : Context) (all : bool) (pruneFilter : Args)
    : State (World E) (option Go.error) :=
  match fs with
  | [] => _ ← report_total total; mret None
  | f :: fs' =>
      '(spaceReclaimed, output, err) ← f ctx all pruneFilter;
      match err with
      | Some e => mret (Some e)
      | None =>
          let total' := Go.uint64_add total spaceReclaimed in
          _ ← log (logrus.Info [fmt.Str output]);
          prune_loop fs' total' ctx all pruneFilter
      end
  end.

Definition runPrune (ctx : Context) (all : bool) (pruneFilter : Args)
    : State (World E) (option Go.error) :=
  prune_loop pruneFuncs 0%N ctx all pruneFilter.

End executor.

(** ** The coordinator: [main]

    The loop of [main] and the goroutines it starts are a transition system.
    A scheduler choice ([Action]) names which party moves: the clock, the
    runtime timer behind the ticker, the coordinator at one of its
    communication points, or one of the worker goroutines.  [exec] is the
    effect of a choice, and is undefined where the party cannot move (a
    channel operation that is not ready blocks). *)

Record Flags : Type := mkFlags {
  filterF : list string;
  intervalF : Z;
  allF : bool;
}.

(** Where the coordinator stands. *)
Inductive PC : Type :=
| AtSelect                                (* at the outer [select] *)
| SendTick                                (* at [queue <- struct{}{}], line 50 *)
| InCycle (ctx : Context) (errCh : nat).  (* at the inner [select] *)

(** Where a worker goroutine [go func() { errCh <- runPrune(...) }()] stands:
    inside the loop of [runPrune] before iteration [i], or at the send of the
    result on [errCh]. *)
Inductive WorkerState : Type :=
| WRun (i : nat) (total : N)
| WSend (err : option Go.error).

Record Worker : Type := mkWorker { wctx : Context; wstate : WorkerState }.

(** Workers are keyed by the [errCh] they were started with. *)
Record Sched (E : Type) : Type := mkSched {
  now : Z;                    (* the clock, in nanoseconds *)
  next_tick : Z;              (* when the ticker fires next *)
  tickerC : bool;             (* [ticker.C], capacity 1: holds a tick? *)
  queue : nat;                (* number of elements buffered in [queue] *)
  pc : PC;
  workers : gmap nat Worker;
  next_chan : nat;            (* channels made so far *)
  world : World E;
}.
Arguments mkSched {E}.
Arguments now {E}.
Arguments next_tick {E}.
Arguments tickerC {E}.
Arguments queue {E}.
Arguments pc {E}.
Arguments workers {E}.
Arguments next_chan {E}.
Arguments world {E}.

Inductive Action : Type :=
| TimePasses (d : Z)
| TickerFires
| SelectTicker        (* [case <-ticker.C:] *)
| QueueSend           (* [queue <- struct{}{}] of line 50 completes *)
| SelectQueue         (* [case <-queue:] up to the inner [select] *)
| CtxDone             (* [case <-ctx.Done():] *)
| ErrChRecv           (* [case err := <-errCh:] *)
| WorkerRuns (errCh : nat).

(** [queue := make(chan struct{}, 1)] *)
Definition queue_cap : nat := 1.

(** [context.WithTimeout(context.Background(), d)] at time [t]. *)
Definition WithTimeout (t d : Z) : Context := mkContext (t + d).

(** [context.DeadlineExceeded.Error()] *)
Definition DeadlineExceeded : Go.error := "context deadline exceeded".

Section coordinator.
Context {stdlib : GoStdlib} {E : Type} {cli : APIClient E}.
Variable flags : Flags.
Variable args : Args.

(** One iteration of the loop of [runPrune] as a worker executes it; after
    the last function the total is reported and the result is [nil]. *)
Definition worker_iteration (ctx : Context) (i : nat) (total : N)
    : State (World E) WorkerState :=
  match pruneFuncs !! i with
  | None => _ ← report_total total; mret (WSend None)
  | Some f =>
      '(spaceReclaimed, output, err) ← f ctx (allF flags) args;
      match err with
      | Some e => mret (WSend (Some e))
      | None =>
          _ ← log (logrus.Info [fmt.Str output]);
          mret (WRun (S i) (Go.uint64_add total spaceReclaimed))
      end
  end.

(** The log line of the coordinator when [errCh] delivers [err]. *)
Definition completion_entry (err : option Go.error) : logrus.Entry :=
  match err with
  | Some e => logrus.Error [fmt.Str "Error occur: %v"; fmt.Err e]
  | None => logrus.Info [fmt.Str "Finished cleaning"]
  end.

(** The runtime timer of a ticker with period [d]: after firing at [t] it is
    re-armed at the first multiple of the period after the current time. *)
Definition rearm (t d n : Z) : Z := t + d * (1 + (n - t) / d).

Definition exec (a : Action) (s : Sched E) : option (Sched E) :=
  match a with
  | TimePasses d =>
      if bool_decide (0 < d) then
        Some (mkSched (now s + d) (next_tick s) (tickerC s) (queue s) (pc s)
                (workers s) (next_chan s) (world s))
      else None
  | TickerFires =>
      if bool_decide (next_tick s <= now s) then
        Some (mkSched (now s) (rearm (next_tick s) (intervalF flags) (now s))
                true (queue s) (pc s) (workers s) (next_chan s) (world s))
      else None
  | SelectTicker =>
      match pc s with
      | AtSelect =>
          if tickerC s then
            Some (mkSched (now s) (next_tick s) false (queue s) SendTick
                    (workers s) (next_chan s) (world s))
          else None
      | _ => None
      end
  | QueueSend =>
      match pc s with
      | SendTick =>
          if bool_decide (queue s < queue_cap)%nat then
            Some (mkSched (now s) (next_tick s) (tickerC s) (S (queue s)) AtSelect
                    (workers s) (next_chan s) (world s))
          else None
      | _ => None
      end
  | SelectQueue =>
      match pc s, queue s with
      | AtSelect, S q =>
          let w := (log (logrus.Info [fmt.Str "Start cleaning up unused data"])
                      (world s)).2 in
          let ctx :=
            WithTimeout (now s) (Go.int64_sub (intervalF flags) time.Second) in
          let errCh := next_chan s in
          Some (mkSched (now s) (next_tick s) (tickerC s) q (InCycle ctx errCh)
                  (<[errCh := mkWorker ctx (WRun 0 0)]> (workers s))
                  (S errCh) w)
      | _, _ => None
      end
  | CtxDone =>
      match pc s with
      | InCycle ctx errCh =>
          if bool_decide (deadline ctx <= now s) then
            let w := (log (logrus.Warn [fmt.Str DeadlineExceeded]) (world s)).2 in
            Some (mkSched (now s) (next_tick s) (tickerC s) (queue s) AtSelect
                    (workers s) (next_chan s) w)
          else None
      | _ => None
      end
  | ErrChRecv =>
      match pc s with
      | InCycle ctx errCh =>
          match workers s !! errCh with
          | Some (mkWorker _ (WSend err)) =>
              let w := (log (completion_entry err) (world s)).2 in
              Some (mkSched (now s) (next_tick s) (tickerC s) (queue s) AtSelect
                      (delete errCh (workers s)) (next_chan s) w)
          | _ => None
          end
      | _ => None
      end
  | WorkerRuns errCh =>
      match workers s !! errCh with
      | Some (mkWorker ctx (WRun i total)) =>
          let '(st, w) := worker_iteration ctx i total (world s) in
          Some (mkSched (now s) (next_tick s) (tickerC s) (queue s) (pc s)
                  (<[errCh := mkWorker ctx st]> (workers s)) (next_chan s) w)
      | _ => None
      end
  end.

Definition step (s s' : Sched E) : Prop := ∃ a, exec a s = Some s'.

(** A schedule, executed from left to right. *)
Fixpoint run (acts : list Action) (s : Sched E) : option (Sched E) :=
  match acts with
  | [] => Some s
  | a :: acts' => s' ← exec a s; run acts' s'
  end.

End coordinator.

(** *** Start-up: the part of [main] before the loop *)

Inductive Outcome (E : Type) : Type :=
| Exited (code : Z) (e : logrus.Entry)    (* [logger.Fatalf]: log, then exit *)
| Panicked (msg : string)
| Started (args : Args) (s : Sched E).
Arguments Exited {E}.
Arguments Panicked {E}.
Arguments Started {E}.

Section startup.
Context {stdlib : GoStdlib} {E : Type}.

(** [for _, s := range *filterF { args, err = filters.ParseFlag(s, args) ... }],
    stopping at the first error. *)
Fixpoint parse_filters (fs : list string) (args : Args)
    : State Heap (Args * option Go.error) :=
  match fs with
  | [] => mret (args, None)
  | s :: fs' =>
      '(args', err) ← filters.ParseFlag s args;
      match err with
      | Some e => mret (args', Some e)
      | None => parse_filters fs' args'
      end
  end.

(** [NewEnvClient] is what [client.NewEnvClient()] returns in the
    environment of the process, [t0] the time at which the ticker is made. *)
Definition main_startup (flags : Flags) (NewEnvClient : E + Go.error) (t0 : Z)
    : Outcome E :=
  let '(args0, h0) := filters.NewArgs [] in
  let '((args, err), h) := parse_filters (filterF flags) args0 h0 in
  match err with
  | Some e =>
      Exited 1 (logrus.Fatalf "Failed to parse filter argument: %v" [fmt.Err e])
  | None =>
      match NewEnvClient with
      | inr e =>
          Exited 1 (logrus.Fatalf "Failed to create Docker client: %v" [fmt.Err e])
      | inl cli =>
          if bool_decide (intervalF flags <= 0) then
            Panicked "non-positive interval for NewTicker"
          else
            Started args
              (mkSched t0 (t0 + intervalF flags) false 1 AtSelect ∅ 0
                 (mkWorld h cli []))
      end
  end.

End startup.

(** ** Test doubles: a standard library and engines to run the program on *)

Module Fixtures.

Definition ascii_lower (c : ascii) : ascii :=
  let n := nat_of_ascii c in
  if bool_decide (65 ≤ n ≤ 90)%nat then ascii_of_nat (n + 32) else c.

Fixpoint ToLower (s : string) : string :=
  match s with
  | EmptyString => ""
  | String c rest => String (ascii_lower c) (ToLower rest)
  end.

Definition is_space (c : ascii) : bool :=
  let n := nat_of_ascii c in
  bool_decide (9 ≤ n ≤ 13)%nat || bool_decide (n = 32)%nat.

Fixpoint trim_left (s : string) : string :=
  match s with
  | EmptyString => ""
  | String c rest => if is_space c then trim_left rest else s
  end.

Fixpoint trim_right (s : string) : string :=
  match s with
  | EmptyString => ""
  | String c rest =>
      match trim_right rest with
      | EmptyString => if is_space c then "" else String c ""
      | rest' => String c rest'
      end
  end.

Definition TrimSpace (s : string) : string := trim_right (trim_left s).

(** A codec that knows the documents of a table and rejects the rest. *)
Definition table_Marshal (tbl : list (Fields * string)) (m : Fields)
    : string + Go.error :=
  match list_find (λ p, p.1 = m) tbl with
  | Some (_, p) => inl p.2
  | None => inr "json: unsupported value"
  end.

Definition table_Decode (tbl : list (Fields * string)) (s : string)
    : Fields + Go.error :=
  match list_find (λ p, p.2 = s) tbl with
  | Some (_, p) => inl p.1
  | None => inr "invalid character"
  end.

Definition table_stdlib (enc dec : list (Fields * string)) : GoStdlib := {|
  json_Marshal := table_Marshal enc;
  json_Decode := table_Decode dec;
  json_Decode_slices := λ _, inr "invalid character";
  strings_ToLower := ToLower;
  strings_TrimSpace := TrimSpace;
|}.

(** An engine that answers each method from a fixed script. *)
Record Script : Type := mkScript {
  on_containers : ContainersPruneReport + Go.error;
  on_images : ImagesPruneReport + Go.error;
  on_networks : NetworksPruneReport + Go.error;
  on_volumes : VolumesPruneReport + Go.error;
}.

#[global] Instance scripted : APIClient Script := {|
  ContainersPrune := λ _ _ e, (on_containers e, e);
  ImagesPrune := λ _ _ e, (on_images e, e);
  NetworksPrune := λ _ _ e, (on_networks e, e);
  VolumesPrune := λ _ _ e, (on_volumes e, e);
|}.

(** The example of the specification: filter [label=env=staging]. *)
Definition staging : Fields := {[ "label" := {[ "env=staging" := true ]} ]}.
Definition staging_doc : string := "{label:{env=staging:true}}".
Definition staging_stdlib : GoStdlib :=
  table_stdlib [(staging, staging_doc)] [(staging, staging_doc)].

Definition names (n : nat) : list string := replicate n "id".

Definition staging_engine : Script := {|
  on_containers := inl {| ContainersDeleted := names 5; c_SpaceReclaimed := 1000 |};
  on_images :=
    inl {| ImagesDeleted := replicate 2 ("", "id"); i_SpaceReclaimed := 2000 |};
  on_networks := inl {| NetworksDeleted := names 1 |};
  on_volumes := inl {| VolumesDeleted := names 3; v_SpaceReclaimed := 500 |};
|}.

Definition staging_flags : Flags :=
  mkFlags ["label=env=staging"] (24 * time.Hour) false.

(** A filter value with a byte that is not valid UTF-8: [caf] followed by the
    byte 0xE9.  [json.Marshal] writes such a byte as U+FFFD, so the document
    of the filter [label=caf\xe9] is the document of the filter whose value
    ends in the three bytes of U+FFFD, and decodes to that one. *)
Definition latin1_cafe : string := "caf" +:+ String (ascii_of_nat 233) "".
Definition replaced_cafe : string :=
  "caf" +:+ String (ascii_of_nat 239)
              (String (ascii_of_nat 191) (String (ascii_of_nat 189) "")).
Definition cafe : Fields := {[ "label" := {[ latin1_cafe := true ]} ]}.
Definition cafe_replaced : Fields := {[ "label" := {[ replaced_cafe := true ]} ]}.
Definition cafe_doc : string := "{label:{caf\ufffd:true}}".
Definition coercing_stdlib : GoStdlib :=
  table_stdlib [(cafe, cafe_doc); (cafe_replaced, cafe_doc)]
    [(cafe_replaced, cafe_doc)].
Definition cafe_flags : Flags :=
  mkFlags ["label=" +:+ latin1_cafe] (24 * time.Hour) false.

End Fixtures.


(** ** What a prune function returns for a reply of the engine *)

Definition reclaimed (r : Report) : N :=
  match r with
  | RContainers r => c_SpaceReclaimed r
  | RImages r => i_SpaceReclaimed r
  | RNetworks _ => 0
  | RVolumes r => v_SpaceReclaimed r
  end.

Definition summary (r : Report) : string :=
  match r with
  | RContainers r =>
      fmt.Sprintf "Deleted Containers: %d, Reclaimed Space: %d"
        [fmt.Int (Z.of_nat (length (ContainersDeleted r)));
         fmt.Uint64 (c_SpaceReclaimed r)]
  | RImages r =>
      fmt.Sprintf "Deleted Images: %d, Reclaimed Space: %d"
        [fmt.Int (Z.of_nat (length (ImagesDeleted r)));
         fmt.Uint64 (i_SpaceReclaimed r)]
  | RNetworks r =>
      fmt.Sprintf "Deleted Networks: %d"
        [fmt.Int (Z.of_nat (length (NetworksDeleted r)))]
  | RVolumes r =>
      fmt.Sprintf "Deleted Volumes: %d, Reclaimed Space: %d"
        [fmt.Int (Z.of_nat (length (VolumesDeleted r)));
         fmt.Uint64 (v_SpaceReclaimed r)]
  end.

Definition report_op (r : Report) : Op :=
  match r with
  | RContainers _ => OpContainers
  | RImages _ => OpImages
  | RNetworks _ => OpNetworks
  | RVolumes _ => OpVolumes
  end.

Definition result_of (reply : Report + Go.error) : N * string * option Go.error :=
  match reply with
  | inl r => (reclaimed r, summary r, None)
  | inr err => (0%N, "", Some err)
  end.

Global Instance Op_eq_dec : EqDecision Op.
Proof. solve_decision. Defined.

(** Unfold the binds and returns of the state monad. *)
Ltac run_state :=
  repeat (unfold mbind, mret, State_bind, State_ret; cbn).


(** ** The shape of the events of one cycle

    [cycle_trace F m ops total evs res]: running the loop over the operations
    [ops] with accumulator [total] and filter [F] (whose map is [m]) produces
    the events [evs] and returns [res]. *)

(** The image operation receives a filter other than [F]; every other
    operation receives [F] itself, with its map [m]. *)
Definition sent_ok (F : Args) (m : Fields) (op : Op) (a : Args) (received : Fields)
    : Prop :=
  if decide (op = OpImages) then a ≠ F else a = F ∧ received = m.

Inductive cycle_trace (F : Args) (m : Fields)
    : list Op → N → list Event → option Go.error → Prop :=
| ct_total total :
    cycle_trace F m [] total [ELog (total_entry total)] None
| ct_abort op ops total a received err :
    sent_ok F m op a received →
    cycle_trace F m (op :: ops) total [ECall op a received (inr err)] (Some err)
| ct_next op ops total a received r evs res :
    sent_ok F m op a received →
    report_op r = op →
    cycle_trace F m ops (Go.uint64_add total (reclaimed r)) evs res →
    cycle_trace F m (op :: ops) total
      (ECall op a received (inl r) :: ELog (logrus.Info [fmt.Str (summary r)]) :: evs)
      res.

(** What the loop relies on from a prune function for the operation [op]: one
    call of the engine, the result computed from its reply, and a store that
    only grows (by the copy that the image operation makes). *)
Definition prune_func_spec {E : Type}
    (op : Op) (f : Context → bool → Args → State (World E) (N * string * option Go.error))
    : Prop :=
  ∀ ctx all F w, (fields F < length (heap w))%nat →
    ∃ a reply extra e,
      f ctx all F w
      = (result_of reply,
         mkWorld (heap w ++ extra) e
           (trace w ++ [ECall op a (filters.contents (heap w ++ extra) a) reply]))
      ∧ match reply with inl r => report_op r = op | inr _ => True end
      ∧ sent_ok F (filters.contents (heap w) F) op a
          (filters.contents (heap w ++ extra) a).

Definition op_order : list Op := [OpContainers; OpImages; OpNetworks; OpVolumes].

(** The operations that the events of a cycle invoke, in order. *)
Definition ops_called (evs : list Event) : list Op :=
  omap (λ ev, match ev with ECall op _ _ _ => Some op | ELog _ => None end) evs.

Definition is_total_report (ev : Event) : Prop :=
  ∃ total, ev = ELog (total_entry total).

(** ** Copying a filter through its parameter form *)

(** The criterion [k=v] is in the filter map [m]. *)
Definition criterion (m : Fields) (k v : string) : Prop :=
  ∃ values, m !! k = Some values ∧ values !! v = Some true.

(** [encoding/json] gives the map [m] back: it has a document, which is not
    the empty string, and which decodes to [m]. *)
Definition json_faithful_on {stdlib : GoStdlib} (m : Fields) : Prop :=
  ∃ s, json_Marshal m = inl s ∧ s ≠ "" ∧ json_Decode s = inl m.

(** One of the two steps of [cloneArgs] returns an error: [filters.ToParam] on
    the filter, or [filters.FromParam] on the string that [ToParam] returned. *)
Definition clone_fails {stdlib : GoStdlib} (F : Args) (h : Heap) : Prop :=
  is_Some (filters.ToParam F h).1.2
  ∨ is_Some (filters.FromParam (filters.ToParam F h).1.1 h).1.2.

(** The events of a cycle in which the four operations succeed with the
    reports [rc], [ri], [rn], [rv] and the total [total] is reported: [F] with
    its map [m] goes to containers, networks and volumes, [newArgs] with the
    map [mi] to images. *)
Definition full_cycle_events (F : Args) (m : Fields) (newArgs : Args) (mi : Fields)
    (rc : ContainersPruneReport) (ri : ImagesPruneReport)
    (rn : NetworksPruneReport) (rv : VolumesPruneReport) (total : N)
    : list Event :=
  [ECall OpContainers F m (inl (RContainers rc));
   ELog (logrus.Info [fmt.Str (summary (RContainers rc))]);
   ECall OpImages newArgs mi (inl (RImages ri));
   ELog (logrus.Info [fmt.Str (summary (RImages ri))]);
   ECall OpNetworks F m (inl (RNetworks rn));
   ELog (logrus.Info [fmt.Str (summary (RNetworks rn))]);
   ECall OpVolumes F m (inl (RVolumes rv));
   ELog (logrus.Info [fmt.Str (summary (RVolumes rv))]);
   ELog (total_entry total)].

(** ** Runs of the coordinator *)

(** A filter argument that [filters.ParseFlag] rejects: not empty and without
    [=]. *)
Definition malformed (s : string) : bool :=
  negb (bool_decide (s = "")) && negb (contains_eq s).

(** The states that a process started with [flags] in an environment where
    [client.NewEnvClient()] returns [conn] can reach. *)
Definition reachable {stdlib : GoStdlib} {E : Type} {cli : APIClient E}
    (flags : Flags) (conn : E + Go.error) (t0 : Z) (s : Sched E) : Prop :=
  ∃ args s0,
    main_startup flags conn t0 = Started args s0 ∧ rtc (step flags args) s0 s.

(** A worker that is inside [runPrune]. *)
Definition executing (w : Worker) : Prop :=
  ∃ i total, wstate w = WRun i total.

(** The context of a worker has passed its deadline. *)
Definition expired {E : Type} (s : Sched E) (w : Worker) : Prop :=
  deadline (wctx w) <= now s.

(** The coordinator stands at the send of line 50 and the queue is full. *)
Definition send_blocked {E : Type} (s : Sched E) : Prop :=
  pc s = SendTick ∧ queue s = queue_cap.

(** Every worker other than the one the coordinator waits for has an expired
    context. *)
Definition others_expired {E : Type} (s : Sched E) : Prop :=
  ∀ ch w, workers s !! ch = Some w →
    pc s = InCycle (wctx w) ch ∨ expired s w.

(** Runs used as examples: no filters, an interval of one nanosecond, of two
    seconds. *)
Definition flags_1ns : Flags := mkFlags [] time.Nanosecond false.
Definition flags_2s : Flags := mkFlags [] (2 * time.Second) false.

(** Worlds and engines for the examples. *)
Module Examples.
Import Fixtures.

Definition ctx0 : Context := mkContext (24 * time.Hour - time.Second).

(** The filter [label=env=staging] is the first map of the store. *)
Definition staging_args : Args := mkArgs 0.
Definition staging_world : World Script := mkWorld [staging] staging_engine [].

(** An engine whose container operation fails. *)
Definition daemon_down : Go.error := "Cannot connect to the Docker daemon".
Definition broken_engine : Script :=
  mkScript (inr daemon_down) (on_images staging_engine)
    (on_networks staging_engine) (on_volumes staging_engine).
Definition broken_world : World Script := mkWorld [staging] broken_engine [].

(** An engine that reports [2^64 - 1] bytes for containers, one byte for
    images and none for volumes. *)
Definition overflow_engine : Script := {|
  on_containers :=
    inl {| ContainersDeleted := names 1; c_SpaceReclaimed := 18446744073709551615 |};
  on_images := inl {| ImagesDeleted := [("", "id")]; i_SpaceReclaimed := 1 |};
  on_networks := inl {| NetworksDeleted := [] |};
  on_volumes := inl {| VolumesDeleted := []; v_SpaceReclaimed := 0 |};
|}.
Definition overflow_world : World Script := mkWorld [staging] overflow_engine [].

(** The filter [label=caf\xe9] is the first map of the store. *)
Definition cafe_world : World Script := mkWorld [cafe] staging_engine [].

(** A standard library whose codec rejects every document. *)
Definition rejecting_stdlib : GoStdlib := table_stdlib [] [].

(** A cycle times out, and the next tick starts another one. *)
Definition overlap_schedule : list Action :=
  [SelectQueue; TimePasses time.Second; CtxDone; TimePasses time.Second;
   TickerFires; SelectTicker; QueueSend; SelectQueue].

(** The first tick arrives while the request of the start-up is pending, and
    the coordinator takes the tick. *)
Definition early_tick_schedule : list Action :=
  [TimePasses 1; TickerFires; SelectTicker].

End Examples.

(** The coordinator of [flags_2s] with the broken engine, after the worker of
    the first cycle has run into the error. *)
Definition error_state : Sched Fixtures.Script :=
  mkSched 0 2000000000 false 0 (InCycle (mkContext 1000000000) 0)
    {[ 0%nat := mkWorker (mkContext 1000000000)
                  (WSend (Some Examples.daemon_down)) ]} 1
    (mkWorld [∅] Examples.broken_engine
       [ELog (logrus.Info [fmt.Str "Start cleaning up unused data"]);
        ECall OpContainers (mkArgs 0) ∅ (inr Examples.daemon_down)]).

(** ** Schedules of one cycle *)

(** The worker of channel [ch] put at [st], in the world [w]. *)
Definition with_worker {E : Type} (s : Sched E) (ch : nat) (ctx : Context)
    (st : WorkerState) (w : World E) : Sched E :=
  mkSched (now s) (next_tick s) (tickerC s) (queue s) (pc s)
    (<[ch := mkWorker ctx st]> (workers s)) (next_chan s) w.


(** The queue holds at most one request, and none while a cycle runs. *)
Definition queue_ok {E : Type} (s : Sched E) : Prop :=
  (queue s ≤ queue_cap)%nat ∧ ∀ ctx ch, pc s = InCycle ctx ch → queue s = 0%nat.

(** ** Reading a cycle's events *)

(** The log lines among the events, and the reports of the calls that
    succeeded, both in order. *)
Definition logged (evs : list Event) : list logrus.Entry :=
  omap (λ ev, match ev with ELog e => Some e | ECall _ _ _ _ => None end) evs.

Definition successes (evs : list Event) : list Report :=
  omap (λ ev, match ev with ECall _ _ _ (inl r) => Some r | _ => None end) evs.

(** The accumulator of [runPrune] after the reports [rs]. *)
Definition accumulate (total : N) (rs : list Report) : N :=
  foldl (λ t r, Go.uint64_add t (reclaimed r)) total rs.

(** Channels are made in order: the channels of the workers and the channel
    the coordinator waits on are older than the next one. *)
Definition chan_fresh {E : Type} (s : Sched E) : Prop :=
  (∀ ch w, workers s !! ch = Some w → (ch < next_chan s)%nat)
  ∧ ∀ ctx ch, pc s = InCycle ctx ch → (ch < next_chan s)%nat.

(** The worker of channel [ch] is alive and the coordinator is not waiting
    for it. *)
Definition abandoned {E : Type} (s : Sched E) (ch : nat) : Prop :=
  is_Some (workers s !! ch) ∧ ∀ ctx, pc s ≠ InCycle ctx ch.

(** The criterion that [filters.ParseFlag] adds for the argument [arg]. *)
Definition filter_name {stdlib : GoStdlib} (arg : string) : string :=
  strings_ToLower (strings_TrimSpace (split_eq arg).1).
Definition filter_value {stdlib : GoStdlib} (arg : string) : string :=
  strings_TrimSpace (split_eq arg).2.

(** More states for the examples: the store with an empty filter, and the
    states in which [main] enters the loop with [flags_2s] and [flags_1ns]. *)
Definition empty_world : World Fixtures.Script :=
  mkWorld [∅] Fixtures.staging_engine [].
Definition start_2s : Sched Fixtures.Script :=
  mkSched 0 2000000000 false 1 AtSelect ∅ 0 empty_world.
Definition start_1ns : Sched Fixtures.Script :=
  mkSched 0 1 false 1 AtSelect ∅ 0 empty_world.

(** * Properties of the executor *)

(** ** The shape of a cycle's events, and what follows from it *)

Lemma Sprintf_plain c v rest os :
  c ≠ "%"%char →
  fmt.Sprintf (String c (String v rest)) os
  = String c (fmt.Sprintf (String v rest) os).
Proof.
  intros Hc.
  change (fmt.Sprintf (String c (String v rest)) os)
    with (if bool_decide (c = "%"%char) && fmt.is_verb v
          then match os with
               | o :: os' => fmt.format_v o +:+ fmt.Sprintf rest os'
               | [] => String c (String "!" (String v "(MISSING)"))
                         +:+ fmt.Sprintf rest []
               end
          else String c (fmt.Sprintf (String v rest) os)).
  by rewrite bool_decide_eq_false_2.
Qed.

(** A summary line is not the line of the total: one starts with [D], the
    other with [T]. *)
Lemma summary_not_total (r : Report) (total : N) :
  logrus.Info [fmt.Str (summary r)] ≠ total_entry total.
Proof.
  unfold total_entry, logrus.Info, logrus.Infof, fmt.Sprint. cbn [fmt.format_v].
  rewrite (Sprintf_plain "T") by done.
  destruct r; unfold summary; rewrite (Sprintf_plain "D") by done;
    intros [=].
Qed.

Lemma cycle_trace_calls F m ops total evs res :
  cycle_trace F m ops total evs res →
  ∀ op a received reply,
    ECall op a received reply ∈ evs → sent_ok F m op a received.
Proof.
  induction 1 as [total|op ops total a received err Hs
                 |op ops total a received r evs res Hs Hr _ IH];
    intros op' a' received' reply' Hin.
  - apply list_elem_of_singleton in Hin. discriminate.
  - apply list_elem_of_singleton in Hin. by simplify_eq.
  - rewrite !elem_of_cons in Hin. destruct Hin as [Heq|[Heq|Hin]].
    + by simplify_eq.
    + discriminate.
    + by eapply IH.
Qed.

Lemma cycle_trace_abort F m ops total evs res op a received err :
  cycle_trace F m ops total evs res →
  ECall op a received (inr err) ∈ evs →
  res = Some err
  ∧ (∃ pre, evs = pre ++ [ECall op a received (inr err)])
  ∧ (∀ ev, ev ∈ evs → ¬ is_total_report ev)
  ∧ ∃ k, ops !! k = Some op ∧ ops_called evs = take (S k) ops.
Proof.
  induction 1 as [total|op0 ops total a0 received0 err0 Hs
                 |op0 ops total a0 received0 r evs res Hs Hr _ IH];
    intros Hin.
  - apply list_elem_of_singleton in Hin. discriminate.
  - apply list_elem_of_singleton in Hin. simplify_eq.
    split; [done|]. split; [by exists []|]. split.
    + intros ev Hev [t ->]. apply list_elem_of_singleton in Hev. discriminate.
    + exists 0%nat. split; [done|]. cbn. by rewrite take_0.
  - rewrite !elem_of_cons in Hin. destruct Hin as [Heq|[Heq|Hin]]; [done..|].
    destruct (IH Hin) as (-> & [pre ->] & Hnot & k & Hk & Hcalled).
    split; [done|]. split; [by eexists (_ :: _ :: pre)|]. split.
    + intros ev Hev [t ->]. rewrite !elem_of_cons in Hev.
      destruct Hev as [Heq|[Heq|Hev]]; [done| |].
      * apply (summary_not_total r t). congruence.
      * eapply Hnot; [done|]. by exists t.
    + exists (S k). split; [done|]. unfold ops_called in *. cbn.
      by rewrite Hcalled.
Qed.

Lemma uint64_sum (c i v : N) :
  Go.uint64_add (Go.uint64_add (Go.uint64_add (Go.uint64_add 0 c) i) 0) v
  = ((c + i + v) mod Go.uint64_modulus)%N.
Proof.
  unfold Go.uint64_add. generalize Go.uint64_modulus as M. intros M.
  rewrite N.add_0_l, N.add_0_r, N.Div0.mod_mod.
  rewrite N.Div0.add_mod_idemp_l, <-N.add_assoc, N.Div0.add_mod_idemp_l.
  by rewrite N.add_assoc.
Qed.

Lemma cycle_trace_success F m total evs :
  cycle_trace F m op_order total evs None →
  ∃ rc ri rn rv newArgs mi,
    newArgs ≠ F ∧
    evs = full_cycle_events F m newArgs mi rc ri rn rv
            (Go.uint64_add
               (Go.uint64_add
                  (Go.uint64_add
                     (Go.uint64_add total (c_SpaceReclaimed rc))
                     (i_SpaceReclaimed ri)) 0)
               (v_SpaceReclaimed rv)).
Proof.
  unfold op_order. intros Hc.
  inversion Hc as [| |? ? ? ? ? r1 ? ? Hs1 Hr1 Hc1]; subst.
  inversion Hc1 as [| |? ? ? ? ? r2 ? ? Hs2 Hr2 Hc2]; subst.
  inversion Hc2 as [| |? ? ? ? ? r3 ? ? Hs3 Hr3 Hc3]; subst.
  inversion Hc3 as [| |? ? ? ? ? r4 ? ? Hs4 Hr4 Hc4]; subst.
  inversion Hc4; subst.
  destruct r1 as [rc| | |]; try discriminate.
  destruct r2 as [|ri| |]; try discriminate.
  destruct r3 as [| |rn|]; try discriminate.
  destruct r4 as [| | |rv]; try discriminate.
  clear Hc Hc1 Hc2 Hc3 Hc4.
  unfold sent_ok in Hs1, Hs2, Hs3, Hs4.
  repeat case_decide; try done.
  destruct Hs1 as [-> ->], Hs3 as [-> ->], Hs4 as [-> ->].
  match goal with
  | Hne : ?a ≠ F |- context [ECall OpImages ?a ?mi _] =>
      exists rc, ri, rn, rv, a, mi; split; [exact Hne|reflexivity]
  end.
Qed.

Section filters_facts.
Context {stdlib : GoStdlib}.

Lemma contents_app_l (h extra : Heap) (a : Args) :
  (fields a < length h)%nat →
  filters.contents (h ++ extra) a = filters.contents h a.
Proof.
  intros Hlt. unfold filters.contents. by rewrite lookup_app_l.
Qed.

Lemma contents_fresh (h : Heap) (m : Fields) :
  filters.contents (h ++ [m]) (mkArgs (length h)) = m.
Proof.
  unfold filters.contents. simpl.
  by rewrite list_lookup_middle.
Qed.

(** [ToParam] only reads the store. *)
Lemma ToParam_heap (a : Args) (h : Heap) : (filters.ToParam a h).2 = h.
Proof.
  unfold filters.ToParam, filters.Len. run_state.
  case_bool_decide; cbn; [done|].
  by destruct (json_Marshal _).
Qed.

(** [FromParam] returns a map of its own, at the end of the store. *)
Lemma FromParam_fresh (p : string) (h : Heap) :
  ∃ m err, filters.FromParam p h = ((mkArgs (length h), err), h ++ [m]).
Proof.
  unfold filters.FromParam.
  case_bool_decide; run_state; [by eexists _, _|].
  destruct (json_Decode p); run_state; [by eexists _, _|].
  destruct (json_Decode_slices p); run_state; by eexists _, _.
Qed.

Lemma cloneArgs_fresh (pruneFilter : Args) (h : Heap) :
  ∃ m, cloneArgs pruneFilter h = (mkArgs (length h), h ++ [m]).
Proof.
  unfold cloneArgs. run_state.
  pose proof (ToParam_heap pruneFilter h) as Hh.
  destruct (filters.ToParam pruneFilter h) as [[s e] h']. simpl in Hh. subst h'.
  destruct (FromParam_fresh s h) as (m & err & ->). by exists m.
Qed.

Lemma Add_fresh (h : Heap) (m : Fields) (name value : string) :
  (filters.Add (mkArgs (length h)) name value (h ++ [m])).2
  = h ++ [filters.fields_add name value m].
Proof.
  unfold filters.Add. cbn.
  rewrite alter_app_r_alt; [|lia]. by rewrite Nat.sub_diag.
Qed.

End filters_facts.

Section executor_facts.
Context {stdlib : GoStdlib} {E : Type} {cli : APIClient E}.

Lemma call_eq {R} op (wrap : R → Report) method ctx (a : Args) (w : World E) :
  call op wrap method ctx a w
  = ((method ctx (filters.contents (heap w) a) (engine w)).1,
     mkWorld (heap w) (method ctx (filters.contents (heap w) a) (engine w)).2
       (trace w ++ [ECall op a (filters.contents (heap w) a)
          (reply_of wrap (method ctx (filters.contents (heap w) a) (engine w)).1)])).
Proof. unfold call. by destruct (method _ _ _). Qed.

(** A prune function that passes [F] on as it is. *)
Ltac plain_prune_func :=
  intros ctx all F w HF;
  match goal with
  | |- context [call ?op ?wrap ?method ctx F] =>
      exists F, (reply_of wrap (method ctx (filters.contents (heap w) F) (engine w)).1),
        [], (method ctx (filters.contents (heap w) F) (engine w)).2;
      rewrite app_nil_r; run_state; rewrite call_eq;
      destruct (method ctx (filters.contents (heap w) F) (engine w))
        as [[r|err] e]; cbn;
      (split; [done|split; [done|by unfold sent_ok; cbn]])
  end.

Lemma pruneContainers_spec : prune_func_spec OpContainers pruneContainers.
Proof. unfold pruneContainers. plain_prune_func. Qed.

Lemma pruneNetworks_spec : prune_func_spec OpNetworks pruneNetworks.
Proof. unfold pruneNetworks. plain_prune_func. Qed.

Lemma pruneVolumes_spec : prune_func_spec OpVolumes pruneVolumes.
Proof. unfold pruneVolumes. plain_prune_func. Qed.

(** [pruneImages], given the map [m] of the copy that [cloneArgs] makes. *)
Lemma pruneImages_eq ctx all (F : Args) (w : World E) (m : Fields) :
  cloneArgs F (heap w) = (mkArgs (length (heap w)), heap w ++ [m]) →
  let m' := filters.fields_add "dangling" (dangling_value all) m in
  let r := ImagesPrune ctx m' (engine w) in
  pruneImages ctx all F w
  = (result_of (reply_of RImages r.1),
     mkWorld (heap w ++ [m']) r.2
       (trace w ++ [ECall OpImages (mkArgs (length (heap w))) m'
                      (reply_of RImages r.1)])).
Proof.
  intros Hclone m' r. unfold pruneImages, on_heap. run_state.
  rewrite Hclone. run_state.
  assert (∀ f : Fields → Fields,
            alter f (length (heap w)) (heap w ++ [m]) = heap w ++ [f m]) as ->.
  { intros f. rewrite alter_app_r_alt by lia. by rewrite Nat.sub_diag. }
  rewrite call_eq. cbn. rewrite contents_fresh.
  fold (dangling_value all). fold m'. fold r.
  destruct r as [[rep|err] e]; cbn; reflexivity.
Qed.

Lemma pruneImages_spec : prune_func_spec OpImages pruneImages.
Proof.
  intros ctx all F w HF.
  destruct (cloneArgs_fresh F (heap w)) as [m Hclone].
  rewrite (pruneImages_eq ctx all F w m Hclone).
  eexists (mkArgs (length (heap w))), _, [_], _.
  rewrite contents_fresh. split; [done|]. split.
  - by destruct (ImagesPrune _ _ _) as [[rep|err] e].
  - unfold sent_ok. cbn. intros Heq. subst F. simpl in HF. lia.
Qed.

Lemma pruneFuncs_spec : Forall2 prune_func_spec op_order pruneFuncs.
Proof.
  repeat constructor;
    auto using pruneContainers_spec, pruneImages_spec, pruneNetworks_spec,
      pruneVolumes_spec.
Qed.

(** The loop of [runPrune]: the store only grows, and the events have the
    shape [cycle_trace]. *)
Lemma prune_loop_trace ctx all (F : Args) ops (fs : list PruneFunc) :
  Forall2 prune_func_spec ops fs →
  ∀ total (w : World E), (fields F < length (heap w))%nat →
    ∃ res evs extra e,
      prune_loop fs total ctx all F w
      = (res, mkWorld (heap w ++ extra) e (trace w ++ evs))
      ∧ cycle_trace F (filters.contents (heap w) F) ops total evs res.
Proof.
  induction 1 as [|op f ops fs Hf _ IH]; intros total w HF.
  - exists None, [ELog (total_entry total)], [], (engine w).
    rewrite app_nil_r. split; [done|constructor].
  - cbn [prune_loop]. run_state.
    destruct (Hf ctx all F w HF) as (a & reply & extra & e & -> & Hop & Hsent).
    destruct reply as [r|err]; cbn.
    + set (w1 := mkWorld _ _ _).
      destruct (IH (Go.uint64_add total (reclaimed r)) w1)
        as (res & evs & extra' & e' & Hloop & Hshape).
      { subst w1. cbn. rewrite length_app. lia. }
      rewrite Hloop. subst w1. cbn in *.
      rewrite contents_app_l in Hshape by done.
      eexists res, (_ :: _ :: evs), (extra ++ extra'), e'. split.
      * by rewrite <-!(assoc_L (++)).
      * by constructor.
    + eexists (Some err), [_], extra, e. split; [done|]. by constructor.
Qed.

Lemma runPrune_trace ctx all (F : Args) (w : World E) :
  (fields F < length (heap w))%nat →
  ∃ res evs extra e,
    runPrune ctx all F w = (res, mkWorld (heap w ++ extra) e (trace w ++ evs))
    ∧ cycle_trace F (filters.contents (heap w) F) op_order 0%N evs res.
Proof. apply prune_loop_trace, pruneFuncs_spec. Qed.

End executor_facts.

(** ** The executor: fail-fast, order and total, the filter is left alone *)

Section executor_claims.
Context {stdlib : GoStdlib} {E : Type} {cli : APIClient E}.

(** C5.  When a prune operation of a cycle fails with error [err], [runPrune]
    returns exactly [err]; the failing call is the last event of the cycle, so
    no later operation is invoked and nothing more is logged; the operations
    invoked are the fixed sequence up to and including the failing one; and
    no total is reported. *)
Theorem runPrune_aborts_on_first_error
    ctx all (F : Args) (w : World E) evs op a received err :
  (fields F < length (heap w))%nat →
  trace (runPrune ctx all F w).2 = trace w ++ evs →
  ECall op a received (inr err) ∈ evs →
  (runPrune ctx all F w).1 = Some err
  ∧ (∃ pre, evs = pre ++ [ECall op a received (inr err)])
  ∧ (∀ ev, ev ∈ evs → ¬ is_total_report ev)
  ∧ ∃ k, op_order !! k = Some op ∧ ops_called evs = take (S k) op_order.
Proof.
  intros HF Htrace Hin.
  destruct (runPrune_trace ctx all F w HF)
    as (res & evs' & extra & e & Hrun & Hshape).
  rewrite Hrun in *. cbn in *. apply app_inv_head in Htrace. subst evs'.
  by eapply cycle_trace_abort.
Qed.

(** C6, as amended.  When all four operations of a cycle succeed, the events
    of the cycle are the calls containers, images, networks, volumes in this
    order, each followed by its summary line, and then the line of the
    total; the total is the sum of the bytes reclaimed by containers, images
    and volumes in [uint64] arithmetic, that is modulo [2^64], and nothing of
    the network report enters it. *)
Theorem runPrune_success_order_and_total ctx all (F : Args) (w : World E) :
  (fields F < length (heap w))%nat →
  (runPrune ctx all F w).1 = None →
  ∃ rc ri rn rv newArgs mi,
    trace (runPrune ctx all F w).2
    = trace w ++
      full_cycle_events F (filters.contents (heap w) F) newArgs mi rc ri rn rv
        ((c_SpaceReclaimed rc + i_SpaceReclaimed ri + v_SpaceReclaimed rv)
           mod 2 ^ 64)%N.
Proof.
  intros HF Hres.
  destruct (runPrune_trace ctx all F w HF)
    as (res & evs & extra & e & Hrun & Hshape).
  rewrite Hrun in *. cbn in *. subst res.
  destruct (cycle_trace_success _ _ _ _ Hshape)
    as (rc & ri & rn & rv & newArgs & mi & _ & ->).
  exists rc, ri, rn, rv, newArgs, mi. by rewrite uint64_sum.
Qed.

(** C4.  A cycle leaves the filter [F] alone: after [runPrune] the map of [F]
    is what it was (the store has only grown), every call other than the
    image call receives [F] itself with that map, and the image call
    receives another [Args], so that extending it cannot reach [F]. *)
Theorem runPrune_leaves_filter_alone ctx all (F : Args) (w : World E) :
  (fields F < length (heap w))%nat →
  heap w `prefix_of` heap (runPrune ctx all F w).2
  ∧ filters.contents (heap (runPrune ctx all F w).2) F
    = filters.contents (heap w) F
  ∧ ∀ evs op a received reply,
      trace (runPrune ctx all F w).2 = trace w ++ evs →
      ECall op a received reply ∈ evs →
      if decide (op = OpImages) then a ≠ F
      else a = F ∧ received = filters.contents (heap w) F.
Proof.
  intros HF.
  destruct (runPrune_trace ctx all F w HF)
    as (res & evs' & extra & e & Hrun & Hshape).
  rewrite Hrun. cbn. split; [by apply prefix_app_r|].
  split; [by apply contents_app_l|].
  intros evs op a received reply Htrace Hin.
  apply app_inv_head in Htrace. subst evs'.
  by apply (cycle_trace_calls _ _ _ _ _ _ Hshape _ _ _ reply).
Qed.

End executor_claims.

(** ** The image operation: the copy of the filter and its extension *)

Lemma fields_add_criterion (m : Fields) (name value k v : string) :
  criterion (filters.fields_add name value m) k v
  ↔ criterion m k v ∨ (k = name ∧ v = value).
Proof.
  unfold criterion, filters.fields_add.
  destruct (m !! name) as [values|] eqn:Hname.
  - destruct (decide (k = name)) as [->|Hk].
    + rewrite lookup_insert_eq, Hname. split.
      * intros (vs & [= <-] & Hv). destruct (decide (v = value)) as [->|Hv'].
        -- by right.
        -- left. rewrite lookup_insert_ne in Hv by done. by exists values.
      * intros [(vs & [= <-] & Hv)|[_ ->]]; eexists; (split; [done|]).
        -- destruct (decide (value = v)) as [->|Hv'].
           ++ by rewrite lookup_insert_eq.
           ++ by rewrite lookup_insert_ne.
        -- by rewrite lookup_insert_eq.
    + rewrite lookup_insert_ne by done. naive_solver.
  - destruct (decide (k = name)) as [->|Hk].
    + rewrite lookup_insert_eq, Hname. split.
      * intros (vs & [= <-] & Hv). right. split; [done|].
        apply lookup_singleton_Some in Hv. by destruct Hv.
      * intros [(vs & [=] & _)|[_ ->]]. eexists. split; [done|].
        by rewrite lookup_singleton_eq.
    + rewrite lookup_insert_ne by done. naive_solver.
Qed.

Section clone_facts.
Context {stdlib : GoStdlib}.

(** A filter that [encoding/json] gives back is copied as it is. *)
Lemma cloneArgs_faithful (F : Args) (h : Heap) :
  (size (filters.contents h F) ≠ 0%nat → json_faithful_on (filters.contents h F)) →
  cloneArgs F h = (mkArgs (length h), h ++ [filters.contents h F]).
Proof.
  intros Hjson. unfold cloneArgs, filters.ToParam, filters.Len. run_state.
  case_bool_decide as Hsize; run_state.
  - unfold filters.FromParam. cbn. run_state.
    apply map_size_empty_iff in Hsize. by rewrite Hsize.
  - destruct (Hjson Hsize) as (s & -> & Hs & Hdec).
    unfold filters.FromParam. rewrite bool_decide_eq_false_2 by done.
    rewrite Hdec. by run_state.
Qed.

Lemma FromParam_error (p : string) (h : Heap) :
  is_Some (filters.FromParam p h).1.2 →
  (filters.FromParam p h).1.1 = mkArgs (length h)
  ∧ (filters.FromParam p h).2 = h ++ [∅].
Proof.
  unfold filters.FromParam.
  case_bool_decide; run_state; [by intros [? [=]]|].
  destruct (json_Decode p); run_state; [by intros [? [=]]|].
  destruct (json_Decode_slices p); run_state; [by intros [? [=]]|done].
Qed.

Lemma ToParam_error (F : Args) (h : Heap) :
  is_Some (filters.ToParam F h).1.2 → (filters.ToParam F h).1.1 = "".
Proof.
  unfold filters.ToParam, filters.Len. run_state.
  case_bool_decide; run_state; [done|].
  destruct (json_Marshal _); cbn; [|done]. by intros [? [=]].
Qed.

(** When a step of [cloneArgs] fails, the copy is the empty filter. *)
Lemma cloneArgs_failure (F : Args) (h : Heap) :
  clone_fails F h → cloneArgs F h = (mkArgs (length h), h ++ [∅]).
Proof.
  intros Hfail. unfold cloneArgs. run_state.
  pose proof (ToParam_heap F h) as Hh.
  pose proof (ToParam_error F h) as Hs.
  unfold clone_fails in Hfail.
  destruct (filters.ToParam F h) as [[s e] h']. cbn in *. subst h'.
  destruct Hfail as [Herr|Herr].
  - rewrite (Hs Herr). by unfold filters.FromParam; run_state.
  - destruct (FromParam_error s h Herr) as [Ha Hh'].
    destruct (filters.FromParam s h) as [[a e'] h']. cbn in *. by subst.
Qed.

End clone_facts.

Section image_claims.
Context {stdlib : GoStdlib} {E : Type} {cli : APIClient E}.

(** C3.  For a filter [F] that [encoding/json] gives back, [pruneImages]
    invokes the image-prune method of the engine exactly once, with a filter
    whose map is the map of [F] extended by [dangling=true] when [all] is
    false and by [dangling=false] when [all] is true: its criteria are those
    of [F] and that one. *)
Theorem pruneImages_receives_filter_with_dangling ctx (all : bool) (F : Args) (w : World E) :
  (size (filters.contents (heap w) F) ≠ 0%nat →
   json_faithful_on (filters.contents (heap w) F)) →
  ∃ newArgs received,
    received
    = filters.fields_add "dangling" (if all then "false" else "true")
        (filters.contents (heap w) F)
    ∧ (∀ k v, criterion received k v
              ↔ criterion (filters.contents (heap w) F) k v
                ∨ (k = "dangling" ∧ v = if all then "false" else "true"))
    ∧ trace (pruneImages ctx all F w).2
      = trace w ++ [ECall OpImages newArgs received
                      (reply_of RImages (ImagesPrune ctx received (engine w)).1)].
Proof.
  intros Hjson.
  rewrite (pruneImages_eq ctx all F w _ (cloneArgs_faithful F (heap w) Hjson)).
  eexists _, _. split; [done|]. split.
  - intros k v. apply fields_add_criterion.
  - cbn. by destruct all.
Qed.

(** C10.  When serializing [F] or reparsing the result fails, [cloneArgs]
    drops the error and returns an empty filter; [pruneImages] then calls the
    engine with the dangling criterion alone, logs nothing, and returns what
    the reply of the engine determines: no error of the copy reaches the
    caller. *)
Theorem pruneImages_with_failed_clone ctx (all : bool) (F : Args) (w : World E) :
  clone_fails F (heap w) →
  let only_dangling : Fields :=
    {[ "dangling" := {[ (if all then "false" else "true") := true ]} ]} in
  let reply := reply_of RImages (ImagesPrune ctx only_dangling (engine w)).1 in
  filters.contents (cloneArgs F (heap w)).2 (cloneArgs F (heap w)).1 = ∅
  ∧ (∀ k v, ¬ criterion (filters.contents (cloneArgs F (heap w)).2
                           (cloneArgs F (heap w)).1) k v)
  ∧ trace (pruneImages ctx all F w).2
    = trace w ++ [ECall OpImages (cloneArgs F (heap w)).1 only_dangling reply]
  ∧ (pruneImages ctx all F w).1 = result_of reply.
Proof.
  intros Hfail only_dangling reply.
  pose proof (cloneArgs_failure F (heap w) Hfail) as Hclone.
  rewrite (pruneImages_eq ctx all F w _ Hclone), Hclone. cbn.
  rewrite contents_fresh.
  assert (filters.fields_add "dangling" (dangling_value all) ∅ = only_dangling)
    as ->.
  { unfold filters.fields_add. rewrite lookup_empty.
    subst only_dangling. by destruct all. }
  split; [done|]. split; [|done].
  intros k v (values & Hk & _). by rewrite lookup_empty in Hk.
Qed.

End image_claims.

(** * Properties of the coordinator *)

Section coordinator_facts.
Context {stdlib : GoStdlib} {E : Type} {cli : APIClient E}.
Variable flags : Flags.
Variable args : Args.

Lemma run_rtc acts (s s' : Sched E) :
  run flags args acts s = Some s' → rtc (step flags args) s s'.
Proof.
  revert s. induction acts as [|a acts IH]; intros s Hrun; cbn in Hrun.
  - by simplify_eq.
  - destruct (exec flags args a s) as [s1|] eqn:Hexec; [|done].
    cbn in Hrun. eapply rtc_l; [by exists a|by apply IH].
Qed.

Lemma run_app acts1 acts2 (s s1 s2 : Sched E) :
  run flags args acts1 s = Some s1 →
  run flags args acts2 s1 = Some s2 →
  run flags args (acts1 ++ acts2) s = Some s2.
Proof.
  revert s. induction acts1 as [|a acts1 IH]; intros s H1 H2; cbn in *.
  - by simplify_eq.
  - destruct (exec flags args a s) as [s'|]; [|done]. cbn in *. by apply IH.
Qed.

(** Splits a step into the cases of [exec]. *)
Ltac exec_cases Hexec :=
  match type of Hexec with
  | exec _ _ ?a ?s = Some _ =>
      destruct a; cbn in Hexec;
      repeat (first
        [ case_bool_decide
        | match type of Hexec with
          | context [match pc s with _ => _ end] => destruct (pc s) eqn:?
          | context [match queue s with _ => _ end] => destruct (queue s) eqn:?
          | context [if tickerC s then _ else _] => destruct (tickerC s) eqn:?
          | context [match workers s !! ?ch with _ => _ end] =>
              destruct (workers s !! ch) as [[? [? ?|?]]|] eqn:?
          | context [let '(_, _) := ?x in _] => destruct x eqn:?
          end ]);
      try discriminate; simplify_eq; cbn in *
  end.

(** Blocked at the send, the coordinator stays blocked: no choice of the
    scheduler moves it, and the queue stays full. *)
Lemma send_blocked_step (s s' : Sched E) :
  send_blocked s → step flags args s s' → send_blocked s'.
Proof.
  intros [Hpc Hq] [a Hexec]. unfold send_blocked.
  exec_cases Hexec; try done; try congruence.
  unfold queue_cap in *. lia.
Qed.

Lemma send_blocked_forever (s s' : Sched E) :
  send_blocked s → rtc (step flags args) s s' → send_blocked s'.
Proof. induction 2; eauto using send_blocked_step. Qed.

(** The invariant behind the serialization of cycles. *)
Lemma others_expired_step (s s' : Sched E) :
  others_expired s → step flags args s s' → others_expired s'.
Proof.
  intros Hinv [a Hexec] ch w. unfold others_expired, expired in *.
  exec_cases Hexec; intros Hw.
  all: try (destruct (Hinv ch w Hw) as [?|?]; [congruence || (by left)|right; lia]).
  all: try (destruct (Hinv ch w Hw) as [?|?]; [congruence|by right]).
  - (* SelectQueue *)
    destruct (decide (ch = next_chan s)) as [->|Hne].
    + rewrite lookup_insert_eq in Hw. simplify_eq. by left.
    + rewrite lookup_insert_ne in Hw by done.
      destruct (Hinv ch w Hw) as [?|?]; [congruence|by right].
  - (* CtxDone *)
    destruct (Hinv ch w Hw) as [?|?]; [|by right].
    right. simplify_eq. cbn in *. lia.
  - (* ErrChRecv *)
    destruct (decide (ch = errCh)) as [->|Hne].
    + by rewrite lookup_delete_eq in Hw.
    + rewrite lookup_delete_ne in Hw by done.
      destruct (Hinv ch w Hw) as [?|?]; [congruence|by right].
  - (* WorkerRuns *)
    destruct (decide (ch = errCh)) as [->|Hne].
    + rewrite lookup_insert_eq in Hw. simplify_eq. cbn.
      match goal with
      | Hl : workers s !! errCh = Some ?w0 |- _ =>
          destruct (Hinv errCh w0 Hl) as [?|?]; [by left|by right]
      end.
    + rewrite lookup_insert_ne in Hw by done. by apply Hinv.
Qed.

(** From the outer [select] the next cycle can always be started: at once
    when a request is pending, and otherwise by the next tick. *)
Lemma next_cycle_possible (s : Sched E) :
  pc s = AtSelect →
  ∃ acts s' ctx ch, run flags args acts s = Some s' ∧ pc s' = InCycle ctx ch.
Proof.
  intros Hpc.
  assert (∀ s1 : Sched E, pc s1 = AtSelect → (0 < queue s1)%nat →
            ∃ s' ctx ch, run flags args [SelectQueue] s1 = Some s'
                         ∧ pc s' = InCycle ctx ch) as Hqueue.
  { intros s1 Hpc1 Hq. cbn. rewrite Hpc1.
    destruct (queue s1); [lia|]. cbn. by eexists _, _, _. }
  assert (∀ s1 : Sched E, pc s1 = AtSelect → queue s1 = 0%nat → tickerC s1 = true →
            ∃ acts s' ctx ch, run flags args acts s1 = Some s'
                              ∧ pc s' = InCycle ctx ch) as Hticker.
  { intros s1 Hpc1 Hq Ht. exists [SelectTicker; QueueSend; SelectQueue].
    cbn. rewrite Hpc1, Ht, Hq. cbn. by eexists _, _, _. }
  destruct (queue s) as [|q] eqn:Hq.
  - destruct (tickerC s) eqn:Ht; [by apply Hticker|].
    destruct (decide (next_tick s <= now s)) as [Hle|Hgt].
    + destruct (Hticker
        (mkSched (now s) (rearm (next_tick s) (intervalF flags) (now s))
           true (queue s) (pc s) (workers s) (next_chan s) (world s)))
        as (acts & s' & ctx & ch & Hrun & Hpc'); [done..|].
      exists (TickerFires :: acts), s', ctx, ch. split; [|done].
      cbn. by rewrite bool_decide_eq_true_2.
    + destruct (Hticker
        (mkSched (now s + (next_tick s - now s))
           (rearm (next_tick s) (intervalF flags) (now s + (next_tick s - now s)))
           true (queue s) (pc s) (workers s) (next_chan s) (world s)))
        as (acts & s' & ctx & ch & Hrun & Hpc'); [done..|].
      exists (TimePasses (next_tick s - now s) :: TickerFires :: acts), s', ctx, ch.
      split; [|done]. cbn.
      rewrite bool_decide_eq_true_2 by lia. cbn.
      by rewrite bool_decide_eq_true_2 by lia.
  - destruct (Hqueue s) as (s' & ctx & ch & Hrun & Hpc'); [done|lia|].
    by exists [SelectQueue], s', ctx, ch.
Qed.

(** What the coordinator does when [errCh] delivers an error. *)
Lemma exec_ErrChRecv_error (s : Sched E) ctx ch wc err :
  pc s = InCycle ctx ch →
  workers s !! ch = Some (mkWorker wc (WSend (Some err))) →
  exec flags args ErrChRecv s
  = Some (mkSched (now s) (next_tick s) (tickerC s) (queue s) AtSelect
            (delete ch (workers s)) (next_chan s)
            (mkWorld (heap (world s)) (engine (world s))
               (trace (world s)
                ++ [ELog (logrus.Error [fmt.Str "Error occur: %v"; fmt.Err err])]))).
Proof. intros Hpc Hw. cbn. by rewrite Hpc, Hw. Qed.

End coordinator_facts.

(** ** Start-up *)

Section startup_facts.
Context {stdlib : GoStdlib} {E : Type} {cli : APIClient E}.

(** [ParseFlag] returns the [Args] it was given, with an error exactly for
    a malformed argument. *)
Lemma ParseFlag_result (arg : string) (prev : Args) (h : Heap) :
  (filters.ParseFlag arg prev h).1
  = (prev, if malformed arg then Some filters.ErrBadFormat else None).
Proof.
  unfold filters.ParseFlag, malformed.
  case_bool_decide; cbn; [done|].
  destruct (contains_eq arg); cbn; [|done]. by run_state.
Qed.

Lemma parse_filters_result (fs : list string) (a : Args) (h : Heap) :
  (parse_filters fs a h).1
  = (a, if existsb malformed fs then Some filters.ErrBadFormat else None).
Proof.
  revert h. induction fs as [|s fs IH]; intros h; cbn; [done|].
  run_state. pose proof (ParseFlag_result s a h) as Hs.
  destruct (filters.ParseFlag s a h) as [[a' err] h']. cbn in Hs.
  injection Hs as -> ->.
  destruct (malformed s); cbn; [done|]. apply IH.
Qed.

Lemma main_startup_cases (flags : Flags) (conn : E + Go.error) (t0 : Z) :
  let h := (parse_filters (filterF flags) (mkArgs 0) [∅]).2 in
  main_startup flags conn t0
  = if existsb malformed (filterF flags) then
      Exited 1 (logrus.Fatalf "Failed to parse filter argument: %v"
                  [fmt.Err filters.ErrBadFormat])
    else match conn with
         | inr e =>
             Exited 1 (logrus.Fatalf "Failed to create Docker client: %v"
                         [fmt.Err e])
         | inl engine0 =>
             if bool_decide (intervalF flags <= 0) then
               Panicked "non-positive interval for NewTicker"
             else
               Started (mkArgs 0)
                 (mkSched t0 (t0 + intervalF flags) false 1 AtSelect ∅ 0
                    (mkWorld h engine0 []))
         end.
Proof.
  intros h. unfold main_startup. cbn.
  pose proof (parse_filters_result (filterF flags) (mkArgs 0) [∅]) as Hp.
  subst h. destruct (parse_filters _ _ _) as [[a err] h]. cbn in *.
  injection Hp as -> ->.
  by destruct (existsb malformed (filterF flags)).
Qed.

Lemma main_startup_Started flags (conn : E + Go.error) t0 a (s0 : Sched E) :
  main_startup flags conn t0 = Started a s0 →
  0 < intervalF flags
  ∧ pc s0 = AtSelect ∧ queue s0 = 1%nat ∧ workers s0 = ∅ ∧ now s0 = t0
  ∧ tickerC s0 = false ∧ trace (world s0) = [].
Proof.
  rewrite main_startup_cases.
  destruct (existsb _ _); [done|]. destruct conn; [|done].
  case_bool_decide; [done|]. intros [= <- <-]. cbn. repeat split; lia.
Qed.

End startup_facts.

(** ** Strings *)

Lemma append_cons (c : ascii) (s t : string) :
  String c s +:+ t = String c (s +:+ t).
Proof. reflexivity. Qed.

Lemma append_empty_r (s : string) : s +:+ "" = s.
Proof.
  induction s as [|c s IH]; [done|]. by rewrite append_cons, IH.
Qed.

Lemma not_own_suffix (a b : ascii) (s : string) : String a (String b s) ≠ s.
Proof.
  revert a b. induction s as [|c s IH]; intros a b; [done|].
  intros [= -> Hs]. by eapply IH.
Qed.

(** [Sprint] of a string followed by an error: the two texts, with no space
    between them. *)
Lemma Sprint_string_error (s : string) (err : Go.error) :
  fmt.Sprint [fmt.Str s; fmt.Err err] = s +:+ err.
Proof.
  unfold fmt.Sprint, fmt.Sprint_after, fmt.format_v. cbn.
  by rewrite append_empty_r.
Qed.

(** [Sprintf] substitutes the error for the verb. *)
Lemma Sprintf_error_occur (err : Go.error) :
  fmt.Sprintf "Error occur: %v" [fmt.Err err] = "Error occur: " +:+ err.
Proof.
  do 13 (rewrite Sprintf_plain by done; rewrite append_cons; f_equal).
  change (fmt.Sprintf "%v" [fmt.Err err]) with (err +:+ "").
  by rewrite append_empty_r.
Qed.

Lemma placeholder_kept (err : Go.error) :
  "Error occur: %v" +:+ err ≠ "Error occur: " +:+ err.
Proof.
  change ("Error occur: %v" +:+ err)
    with ("Error occur: " +:+ String "%" (String "v" err)).
  intros Heq. apply (inj (String.app _)) in Heq.
  by apply not_own_suffix in Heq.
Qed.

(** ** The worker goroutine and [runPrune] *)

Section worker_facts.
Context {stdlib : GoStdlib} {E : Type} {cli : APIClient E}.
Variable flags : Flags.
Variable args : Args.

Lemma with_worker_twice (s : Sched E) ch ctx st1 w1 st2 w2 :
  with_worker (with_worker s ch ctx st1 w1) ch ctx st2 w2
  = with_worker s ch ctx st2 w2.
Proof. unfold with_worker. cbn. by rewrite insert_insert_eq. Qed.

Lemma exec_WorkerRuns (s : Sched E) ch ctx i total :
  workers s !! ch = Some (mkWorker ctx (WRun i total)) →
  exec flags args (WorkerRuns ch) s
  = Some (with_worker s ch ctx
            (worker_iteration flags args ctx i total (world s)).1
            (worker_iteration flags args ctx i total (world s)).2).
Proof.
  intros Hw. cbn. rewrite Hw.
  by destruct (worker_iteration _ _ _ _ _ _).
Qed.

Lemma run_cons_Some a acts (s s1 : Sched E) :
  exec flags args a s = Some s1 →
  run flags args (a :: acts) s = run flags args acts s1.
Proof. intros Hexec. cbn [run]. by rewrite Hexec. Qed.

Lemma worker_iteration_end ctx i total (w : World E) :
  pruneFuncs !! i = None →
  worker_iteration flags args ctx i total w
  = (WSend None, (report_total total w).2).
Proof.
  intros Hi. unfold worker_iteration, PruneFunc, PruneResult in *.
  rewrite Hi. by run_state.
Qed.

Lemma worker_iteration_call ctx i total (w : World E) (f : PruneFunc) :
  pruneFuncs !! i = Some f →
  worker_iteration flags args ctx i total w
  = match f ctx (allF flags) args w with
    | (_, _, Some e, w1) => (WSend (Some e), w1)
    | (space, output, None, w1) =>
        (WRun (S i) (Go.uint64_add total space),
         (log (logrus.Info [fmt.Str output]) w1).2)
    end.
Proof.
  intros Hi. unfold worker_iteration, PruneFunc, PruneResult in *.
  rewrite Hi. run_state.
  by destruct (f ctx (allF flags) args w) as [[[space output] [e|]] w1].
Qed.

Lemma prune_loop_nil total ctx all (F : Args) (w : World E) :
  prune_loop [] total ctx all F w = (None, (report_total total w).2).
Proof. cbn [prune_loop]. by run_state. Qed.

Lemma prune_loop_cons (f : PruneFunc) fs total ctx all (F : Args) (w : World E) :
  prune_loop (f :: fs) total ctx all F w
  = match f ctx all F w with
    | (_, _, Some e, w1) => (Some e, w1)
    | (space, output, None, w1) =>
        prune_loop fs (Go.uint64_add total space) ctx all F
          (log (logrus.Info [fmt.Str output]) w1).2
    end.
Proof.
  cbn [prune_loop]. run_state.
  by destruct (f ctx all F w) as [[[space output] [e|]] w1].
Qed.

(** The worker goroutine computes [runPrune]: from iteration [i] with the
    accumulator [total], at most as many steps as there are functions left,
    plus one, bring it to the send of what the rest of the loop returns. *)
Lemma worker_runs_loop (fs : list PruneFunc) :
  ∀ i total (s : Sched E) ch ctx,
    drop i pruneFuncs = fs →
    workers s !! ch = Some (mkWorker ctx (WRun i total)) →
    ∃ n, (n ≤ S (length fs))%nat
         ∧ run flags args (replicate n (WorkerRuns ch)) s
           = Some (with_worker s ch ctx
                     (WSend (prune_loop fs total ctx (allF flags) args (world s)).1)
                     (prune_loop fs total ctx (allF flags) args (world s)).2).
Proof.
  induction fs as [|f fs IH]; intros i total s ch ctx Hdrop Hw.
  - exists 1%nat. split; [cbn; lia|].
    change (replicate 1 (WorkerRuns ch)) with [WorkerRuns ch].
    rewrite (run_cons_Some _ _ _ _ (exec_WorkerRuns _ _ _ _ _ Hw)).
    rewrite worker_iteration_end, prune_loop_nil; [done|].
    apply lookup_ge_None. apply drop_nil_inv in Hdrop. lia.
  - assert (pruneFuncs !! i = Some f) as Hf.
    { rewrite <-(Nat.add_0_r i), <-lookup_drop, Hdrop. done. }
    assert (drop (S i) pruneFuncs = fs) as Hdrop'.
    { change (S i) with (1 + i)%nat. rewrite Nat.add_comm, <-drop_drop, Hdrop.
      done. }
    pose proof (exec_WorkerRuns _ _ _ _ _ Hw) as Hexec.
    rewrite (worker_iteration_call _ _ _ _ _ Hf) in Hexec.
    rewrite prune_loop_cons.
    destruct (f ctx (allF flags) args (world s)) as [[[space output] [e|]] w1].
    + exists 1%nat. split; [cbn; lia|].
      change (replicate 1 (WorkerRuns ch)) with [WorkerRuns ch].
      by rewrite (run_cons_Some _ _ _ _ Hexec).
    + cbn [fst snd] in Hexec.
      set (w2 := (log (logrus.Info [fmt.Str output]) w1).2) in *.
      set (s1 := with_worker s ch ctx _ w2) in Hexec.
      destruct (IH (S i) (Go.uint64_add total space) s1 ch ctx Hdrop')
        as (n & Hn & Hrun).
      { subst s1. unfold with_worker. cbn. by rewrite lookup_insert_eq. }
      exists (S n). split; [cbn; lia|].
      change (replicate (S n) (WorkerRuns ch))
        with (WorkerRuns ch :: replicate n (WorkerRuns ch)).
      rewrite (run_cons_Some _ _ _ _ Hexec), Hrun. subst s1.
      by rewrite with_worker_twice.
Qed.

Lemma worker_runs_runPrune (s : Sched E) ch ctx :
  workers s !! ch = Some (mkWorker ctx (WRun 0 0)) →
  ∃ n, (n ≤ 5)%nat
       ∧ run flags args (replicate n (WorkerRuns ch)) s
         = Some (with_worker s ch ctx
                   (WSend (runPrune ctx (allF flags) args (world s)).1)
                   (runPrune ctx (allF flags) args (world s)).2).
Proof. intros Hw. by apply (worker_runs_loop pruneFuncs 0). Qed.

End worker_facts.

(** ** The coordinator: blocking send, serialization, deadline, errors *)

Section coordinator_claims.
Context {stdlib : GoStdlib} {E : Type} {cli : APIClient E}.

Lemma int64_wrap_small (z : Z) : Go.int64_range z → Go.int64_wrap z = z.
Proof.
  unfold Go.int64_range, Go.int64_wrap. intros Hz.
  rewrite Z.mod_small; lia.
Qed.

Lemma others_expired_reachable flags (conn : E + Go.error) t0 (s : Sched E) :
  reachable flags conn t0 s → others_expired s.
Proof.
  intros (args & s0 & Hstart & Hrtc).
  apply main_startup_Started in Hstart as (_ & _ & _ & Hw & _).
  revert s Hrtc. apply rtc_ind_r.
  - intros ch w. by rewrite Hw, lookup_empty.
  - intros s1 s2 _ Hstep IH. by eapply others_expired_step.
Qed.

(** C2, as amended.  In every reachable state, of two worker goroutines at
    least one has a context whose deadline has passed: the coordinator
    starts an execution only after it has left the previous one, on its
    completion or on the expiry of its deadline.  So at most one execution
    with a live context exists at a time; an execution abandoned on timeout
    may still be running beside the next one. *)
Theorem at_most_one_live_execution
    flags (conn : E + Go.error) t0 (s : Sched E) ch1 ch2 w1 w2 :
  reachable flags conn t0 s →
  ch1 ≠ ch2 →
  workers s !! ch1 = Some w1 →
  workers s !! ch2 = Some w2 →
  expired s w1 ∨ expired s w2.
Proof.
  intros Hreach Hne Hw1 Hw2.
  pose proof (others_expired_reachable _ _ _ _ Hreach) as Hinv.
  destruct (Hinv ch1 w1 Hw1) as [Hpc1|?]; [|by left].
  destruct (Hinv ch2 w2 Hw2) as [Hpc2|?]; [|by right].
  congruence.
Qed.

(** C7.  A cycle begins when the coordinator, at the outer [select], takes
    the pending request from the queue; the context of the cycle then has
    the deadline [now + (interval - 1s)], with [now] the time of that step,
    and the worker of the cycle starts with this context. *)
Theorem cycle_deadline_is_interval_minus_second
    flags (conn : E + Go.error) t0 args (s0 s s' : Sched E) a ctx ch :
  Go.int64_range (intervalF flags) →
  main_startup flags conn t0 = Started args s0 →
  exec flags args a s = Some s' →
  pc s = AtSelect →
  pc s' = InCycle ctx ch →
  a = SelectQueue
  ∧ deadline ctx = now s + (intervalF flags - time.Second)
  ∧ workers s' !! ch = Some (mkWorker ctx (WRun 0 0)).
Proof.
  intros Hrange Hstart Hexec Hpc Hpc'.
  apply main_startup_Started in Hstart as (Hpos & _).
  destruct a; cbn in Hexec; rewrite ?Hpc in Hexec;
    repeat case_bool_decide; try discriminate.
  1-3, 5: by (repeat case_match; simplify_eq; cbn in *; congruence).
  destruct (queue s) as [|q]; [done|]. simplify_eq. cbn in *.
  simplify_eq. split; [done|]. split.
  - cbn. unfold Go.int64_sub. rewrite int64_wrap_small; [done|].
    unfold Go.int64_range, time.Second in *. lia.
  - by rewrite lookup_insert_eq.
Qed.

(** C9.  When [errCh] delivers an error, the coordinator hands the text
    [Error occur: %v] and the error to [logger.Error], which formats with
    [Sprint]: the logged message is that text, verb included, followed by
    the text of the error.  It is not what [Sprintf] would give, where the
    error stands in the place of the verb. *)
Theorem error_report_keeps_verb flags args (s : Sched E) ctx ch wc err :
  pc s = InCycle ctx ch →
  workers s !! ch = Some (mkWorker wc (WSend (Some err))) →
  ∃ s', exec flags args ErrChRecv s = Some s'
    ∧ trace (world s')
      = trace (world s)
        ++ [ELog (logrus.Error [fmt.Str "Error occur: %v"; fmt.Err err])]
    ∧ logrus.Error [fmt.Str "Error occur: %v"; fmt.Err err]
      = logrus.mkEntry logrus.ErrorLevel ("Error occur: %v" +:+ err)
    ∧ fmt.Sprintf "Error occur: %v" [fmt.Err err] = "Error occur: " +:+ err
    ∧ "Error occur: %v" +:+ err ≠ fmt.Sprintf "Error occur: %v" [fmt.Err err].
Proof.
  intros Hpc Hw. eexists. split; [by eapply exec_ErrChRecv_error|].
  split; [done|]. split; [|split].
  - unfold logrus.Error. by rewrite Sprint_string_error.
  - apply Sprintf_error_occur.
  - rewrite Sprintf_error_occur. apply placeholder_kept.
Qed.

Lemma queue_ok_step flags args (s s' : Sched E) :
  queue_ok s → step flags args s s' → queue_ok s'.
Proof.
  intros [Hcap Hcycle] [a Hexec]. unfold queue_ok, queue_cap in *.
  destruct a; cbn in Hexec.
  - case_bool_decide; [|done]. by simplify_eq.
  - case_bool_decide; [|done]. by simplify_eq.
  - destruct (pc s); [|done..]. destruct (tickerC s); [|done].
    simplify_eq. cbn. split; [done|]. by intros ctx ch [=].
  - destruct (pc s); [done| |done]. case_bool_decide; [|done].
    simplify_eq. cbn. unfold queue_cap in *. split; [lia|]. by intros ctx ch [=].
  - destruct (pc s); [|done..]. destruct (queue s) as [|q] eqn:Hq; [done|].
    simplify_eq. cbn. split; [lia|]. intros ctx ch _. lia.
  - destruct (pc s) as [| |ctx ch]; [done..|]. case_bool_decide; [|done].
    simplify_eq. cbn. split; [done|]. by intros ctx' ch' [=].
  - destruct (pc s) as [| |ctx ch]; [done..|].
    destruct (workers s !! ch) as [[? [? ?|?]]|]; [done| |done].
    simplify_eq. cbn. split; [done|]. by intros ctx' ch' [=].
  - destruct (workers s !! errCh) as [[? [? ?|?]]|]; [|done..].
    destruct (worker_iteration _ _ _ _ _ _). by simplify_eq.
Qed.




End coordinator_claims.

Section blocked_facts.
Context {stdlib : GoStdlib} {E : Type} {cli : APIClient E}.
Variable flags : Flags.
Variable args : Args.

(** Blocked at the send with no worker, nothing changes but the clock and
    the ticker. *)
Lemma stuck_step (s s' : Sched E) :
  send_blocked s ∧ workers s = ∅ ∧ trace (world s) = [] →
  step flags args s s' →
  send_blocked s' ∧ workers s' = ∅ ∧ trace (world s') = [].
Proof.
  intros (Hb & Hw & Ht) Hstep.
  split; [by eapply send_blocked_step|].
  destruct Hb as [Hpc Hq], Hstep as [a Hexec].
  destruct a; cbn in Hexec; rewrite ?Hpc, ?Hw, ?lookup_empty in Hexec;
    repeat case_bool_decide; by simplify_eq.
Qed.

Lemma stuck_forever (s s' : Sched E) :
  send_blocked s ∧ workers s = ∅ ∧ trace (world s) = [] →
  rtc (step flags args) s s' →
  pc s' = SendTick ∧ queue s' = 1%nat
  ∧ workers s' = ∅ ∧ trace (world s') = [].
Proof.
  intros Hs Hrtc.
  assert (send_blocked s' ∧ workers s' = ∅ ∧ trace (world s') = [])
    as ([? ?] & ? & ?); [|done].
  induction Hrtc; eauto using stuck_step.
Qed.

End blocked_facts.

(** * The program on concrete runs *)

Section examples.
Import Fixtures Examples.

(** The example of the specification: one cycle with the filter
    [label=env=staging] reports a total of 3500 bytes. *)
Example staging_cycle_total :
  last (trace (runPrune (stdlib:=staging_stdlib) ctx0 false staging_args
                 staging_world).2)
  = Some (ELog (logrus.mkEntry logrus.InfoLevel "Total reclaimed space: 3500")).
Proof. vm_compute. reflexivity. Qed.

(** A cycle of [flags_2s] that times out and the cycle of the next tick:
    the state after [overlap_schedule]. *)
Lemma overlap_run :
  ∃ s0 s,
    main_startup (stdlib:=staging_stdlib) flags_2s (inl staging_engine) 0
    = Started (mkArgs 0) s0
    ∧ run (stdlib:=staging_stdlib) flags_2s (mkArgs 0) overlap_schedule s0 = Some s
    ∧ now s = 2000000000
    ∧ workers s !! 0%nat = Some (mkWorker (mkContext 1000000000) (WRun 0 0))
    ∧ workers s !! 1%nat = Some (mkWorker (mkContext 3000000000) (WRun 0 0)).
Proof.
  eexists _, _. split; [vm_compute; reflexivity|].
  split; [vm_compute; reflexivity|].
  repeat split; vm_compute; reflexivity.
Qed.

Lemma overlap_reachable :
  ∃ s,
    reachable (stdlib:=staging_stdlib) flags_2s (inl staging_engine) 0 s
    ∧ now s = 2000000000
    ∧ workers s !! 0%nat = Some (mkWorker (mkContext 1000000000) (WRun 0 0))
    ∧ workers s !! 1%nat = Some (mkWorker (mkContext 3000000000) (WRun 0 0)).
Proof.
  destruct overlap_run as (s0 & s & Hstart & Hrun & Hnow & Hw0 & Hw1).
  exists s. split; [|done].
  exists (mkArgs 0), s0. split; [done|]. by eapply run_rtc.
Defined.

(** C2, counterexample.  With an interval of two seconds, the first cycle is
    abandoned at its deadline while its worker is still inside [runPrune];
    the next tick starts the second cycle, and the two workers are inside
    [runPrune] at the same time. *)
Lemma abandoned_execution_overlaps_next :
  ∃ s w0 w1,
    reachable (stdlib:=staging_stdlib) flags_2s (inl staging_engine) 0 s
    ∧ workers s !! 0%nat = Some w0
    ∧ workers s !! 1%nat = Some w1
    ∧ executing w0 ∧ executing w1.
Proof.
  destruct overlap_reachable as (s & Hreach & _ & Hw0 & Hw1).
  eexists s, _, _. split; [done|]. split; [done|]. split; [done|].
  split; by eexists _, _.
Qed.

Lemma at_most_one_live_execution_witness :
  ∃ s w0 w1,
    reachable (stdlib:=staging_stdlib) flags_2s (inl staging_engine) 0 s
    ∧ workers s !! 0%nat = Some w0
    ∧ workers s !! 1%nat = Some w1
    ∧ (expired s w0 ∨ expired s w1).
Proof.
  destruct overlap_reachable as (s & Hreach & _ & Hw0 & Hw1).
  eexists s, _, _. split; [exact Hreach|]. split; [exact Hw0|].
  split; [exact Hw1|].
  apply (at_most_one_live_execution (stdlib:=staging_stdlib) flags_2s
           (inl staging_engine) 0 s 0%nat 1%nat _ _ Hreach);
    [lia|exact Hw0|exact Hw1].
Defined.

(** C1: what the code does.  With an interval of one nanosecond the first
    tick is due while the request of the start-up is still in the queue.
    When the coordinator takes the tick first, it stands at the send of
    line 50 with the queue full: the send cannot complete, and whatever the
    scheduler chooses from then on, the coordinator stays there, no cycle
    starts and nothing is logged.  The tick is not dropped. *)
Theorem tick_on_full_queue_blocks_forever :
  ∃ s0 s,
    main_startup (stdlib:=staging_stdlib) flags_1ns (inl staging_engine) 0
    = Started (mkArgs 0) s0
    ∧ run (stdlib:=staging_stdlib) flags_1ns (mkArgs 0) early_tick_schedule s0
      = Some s
    ∧ pc s = SendTick ∧ queue s = 1%nat
    ∧ exec (stdlib:=staging_stdlib) flags_1ns (mkArgs 0) QueueSend s = None
    ∧ ∀ s', rtc (step (stdlib:=staging_stdlib) flags_1ns (mkArgs 0)) s s' →
        pc s' = SendTick ∧ queue s' = 1%nat
        ∧ workers s' = ∅ ∧ trace (world s') = [].
Proof.
  eexists _, _. split; [vm_compute; reflexivity|].
  split; [vm_compute; reflexivity|].
  split; [reflexivity|]. split; [reflexivity|]. split; [reflexivity|].
  intros s' Hrtc.
  eapply (stuck_forever (stdlib:=staging_stdlib)) in Hrtc; [exact Hrtc|].
  repeat split.
Qed.

(** C6, counterexample.  The engine reports [2^64 - 1] bytes for containers,
    1 for images and 0 for volumes; all four operations succeed, and the
    total that is reported is 0, not the sum [2^64]. *)
Lemma total_wraps_around :
  ∃ newArgs mi,
    runPrune (stdlib:=staging_stdlib) ctx0 false staging_args overflow_world
    = (None,
       mkWorld [staging; mi] overflow_engine
         (full_cycle_events staging_args staging newArgs mi
            {| ContainersDeleted := names 1;
               c_SpaceReclaimed := 18446744073709551615 |}
            {| ImagesDeleted := [("", "id")]; i_SpaceReclaimed := 1 |}
            {| NetworksDeleted := [] |}
            {| VolumesDeleted := []; v_SpaceReclaimed := 0 |}
            0))
    ∧ (18446744073709551615 + 1 + 0 ≠ 0)%N
    ∧ total_entry 0 ≠ total_entry (18446744073709551615 + 1 + 0).
Proof.
  eexists _, _. split; [vm_compute; reflexivity|]. split; [done|].
  vm_compute. discriminate.
Qed.

Lemma runPrune_aborts_on_first_error_witness :
  let evs := [ECall OpContainers staging_args staging (inr daemon_down)] in
  (runPrune (stdlib:=staging_stdlib) ctx0 false staging_args broken_world).1
  = Some daemon_down
  ∧ (∃ pre, evs = pre ++ [ECall OpContainers staging_args staging (inr daemon_down)])
  ∧ (∀ ev, ev ∈ evs → ¬ is_total_report ev)
  ∧ ∃ k, op_order !! k = Some OpContainers
         ∧ ops_called evs = take (S k) op_order.
Proof.
  intros evs.
  apply (runPrune_aborts_on_first_error (stdlib:=staging_stdlib)
           ctx0 false staging_args broken_world evs);
    [cbn; lia|vm_compute; reflexivity|constructor].
Defined.

Lemma runPrune_success_order_and_total_witness :
  ∃ rc ri rn rv newArgs mi,
    trace (runPrune (stdlib:=staging_stdlib) ctx0 false staging_args
             staging_world).2
    = trace staging_world ++
      full_cycle_events staging_args
        (filters.contents (heap staging_world) staging_args) newArgs mi
        rc ri rn rv
        ((c_SpaceReclaimed rc + i_SpaceReclaimed ri + v_SpaceReclaimed rv)
           mod 2 ^ 64)%N.
Proof.
  apply (runPrune_success_order_and_total (stdlib:=staging_stdlib)
           ctx0 false staging_args staging_world);
    [cbn; lia|vm_compute; reflexivity].
Defined.

Lemma runPrune_leaves_filter_alone_witness :
  heap staging_world
    `prefix_of` heap (runPrune (stdlib:=staging_stdlib) ctx0 false
                        staging_args staging_world).2
  ∧ filters.contents
      (heap (runPrune (stdlib:=staging_stdlib) ctx0 false staging_args
               staging_world).2) staging_args
    = filters.contents (heap staging_world) staging_args
  ∧ ∀ evs op a received reply,
      trace (runPrune (stdlib:=staging_stdlib) ctx0 false staging_args
               staging_world).2 = trace staging_world ++ evs →
      ECall op a received reply ∈ evs →
      if decide (op = OpImages) then a ≠ staging_args
      else a = staging_args
           ∧ received = filters.contents (heap staging_world) staging_args.
Proof.
  apply (runPrune_leaves_filter_alone (stdlib:=staging_stdlib)
           ctx0 false staging_args staging_world).
  cbn. lia.
Defined.

Lemma staging_json_faithful :
  json_faithful_on (stdlib:=staging_stdlib)
    (filters.contents (heap staging_world) staging_args).
Proof.
  exists staging_doc. split; [vm_compute; reflexivity|].
  split; [discriminate|vm_compute; reflexivity].
Defined.

Lemma pruneImages_receives_filter_with_dangling_witness :
  ∃ newArgs received,
    received
    = filters.fields_add "dangling" "true"
        (filters.contents (heap staging_world) staging_args)
    ∧ (∀ k v, criterion received k v
              ↔ criterion (filters.contents (heap staging_world) staging_args) k v
                ∨ (k = "dangling" ∧ v = "true"))
    ∧ trace (pruneImages (stdlib:=staging_stdlib) ctx0 false staging_args
               staging_world).2
      = trace staging_world
        ++ [ECall OpImages newArgs received
              (reply_of RImages
                 (ImagesPrune ctx0 received (engine staging_world)).1)].
Proof.
  apply (pruneImages_receives_filter_with_dangling (stdlib:=staging_stdlib)
           ctx0 false staging_args staging_world).
  intros _. exact staging_json_faithful.
Defined.

Lemma pruneImages_with_failed_clone_witness :
  let only_dangling : Fields := {[ "dangling" := {[ "true" := true ]} ]} in
  let reply :=
    reply_of RImages (ImagesPrune ctx0 only_dangling (engine staging_world)).1 in
  filters.contents
    (cloneArgs (stdlib:=rejecting_stdlib) staging_args (heap staging_world)).2
    (cloneArgs (stdlib:=rejecting_stdlib) staging_args (heap staging_world)).1
  = ∅
  ∧ (∀ k v,
       ¬ criterion
           (filters.contents
              (cloneArgs (stdlib:=rejecting_stdlib) staging_args
                 (heap staging_world)).2
              (cloneArgs (stdlib:=rejecting_stdlib) staging_args
                 (heap staging_world)).1) k v)
  ∧ trace (pruneImages (stdlib:=rejecting_stdlib) ctx0 false staging_args
             staging_world).2
    = trace staging_world
      ++ [ECall OpImages
            (cloneArgs (stdlib:=rejecting_stdlib) staging_args
               (heap staging_world)).1 only_dangling reply]
  ∧ (pruneImages (stdlib:=rejecting_stdlib) ctx0 false staging_args
       staging_world).1 = result_of reply.
Proof.
  apply (pruneImages_with_failed_clone (stdlib:=rejecting_stdlib)
           ctx0 false staging_args staging_world).
  left. vm_compute. by eexists.
Defined.

Lemma cycle_deadline_is_interval_minus_second_witness :
  ∃ s0 s' ctx ch,
    main_startup (stdlib:=staging_stdlib) flags_2s (inl staging_engine) 0
    = Started (mkArgs 0) s0
    ∧ exec (stdlib:=staging_stdlib) flags_2s (mkArgs 0) SelectQueue s0 = Some s'
    ∧ pc s' = InCycle ctx ch
    ∧ SelectQueue = SelectQueue
    ∧ deadline ctx = now s0 + (intervalF flags_2s - time.Second)
    ∧ workers s' !! ch = Some (mkWorker ctx (WRun 0 0)).
Proof.
  eexists _, _, _, _. split; [vm_compute; reflexivity|].
  split; [vm_compute; reflexivity|]. split; [reflexivity|].
  eapply (cycle_deadline_is_interval_minus_second (stdlib:=staging_stdlib)
            flags_2s (inl staging_engine) 0 (mkArgs 0));
    [unfold Go.int64_range, flags_2s, time.Second; cbn; lia
    |vm_compute; reflexivity|vm_compute; reflexivity|reflexivity|reflexivity].
Defined.


Lemma error_report_keeps_verb_witness :
  pc error_state = InCycle (mkContext 1000000000) 0
  ∧ workers error_state !! 0%nat
    = Some (mkWorker (mkContext 1000000000) (WSend (Some daemon_down)))
  ∧ ∃ s', exec (stdlib:=staging_stdlib) flags_2s (mkArgs 0) ErrChRecv error_state
          = Some s'
      ∧ trace (world s')
        = trace (world error_state)
          ++ [ELog (logrus.Error [fmt.Str "Error occur: %v"; fmt.Err daemon_down])]
      ∧ logrus.Error [fmt.Str "Error occur: %v"; fmt.Err daemon_down]
        = logrus.mkEntry logrus.ErrorLevel ("Error occur: %v" +:+ daemon_down)
      ∧ fmt.Sprintf "Error occur: %v" [fmt.Err daemon_down]
        = "Error occur: " +:+ daemon_down
      ∧ "Error occur: %v" +:+ daemon_down
        ≠ fmt.Sprintf "Error occur: %v" [fmt.Err daemon_down].
Proof.
  split; [reflexivity|]. split; [reflexivity|].
  apply (error_report_keeps_verb (stdlib:=staging_stdlib) flags_2s (mkArgs 0)
           error_state (mkContext 1000000000) 0%nat (mkContext 1000000000)
           daemon_down); reflexivity.
Defined.

(** The command line [--filter label=caf\xe9] gives the filter [cafe]. *)
Example cafe_from_command_line :
  ∃ s0,
    main_startup (stdlib:=coercing_stdlib) cafe_flags (inl staging_engine) 0
    = Started staging_args s0
    ∧ heap (world s0) = heap cafe_world.
Proof. eexists. split; [vm_compute; reflexivity|]. vm_compute. reflexivity. Qed.

(** C3, counterexample.  The filter [label=caf\xe9] holds a byte that is not
    valid UTF-8.  Its copy through the parameter form holds U+FFFD instead, so
    the image operation receives a filter that is not [F] extended by
    [dangling=true]: the criterion of [F] is not among its criteria. *)
Lemma invalid_utf8_filter_is_not_copied :
  ∃ newArgs received reply,
    trace (pruneImages (stdlib:=coercing_stdlib) ctx0 false staging_args
             cafe_world).2
    = trace cafe_world ++ [ECall OpImages newArgs received reply]
    ∧ received = filters.fields_add "dangling" "true" cafe_replaced
    ∧ received
      ≠ filters.fields_add "dangling" "true"
          (filters.contents (heap cafe_world) staging_args)
    ∧ criterion (filters.contents (heap cafe_world) staging_args)
        "label" latin1_cafe
    ∧ ¬ criterion received "label" latin1_cafe.
Proof.
  eexists _, _, _. split; [vm_compute; reflexivity|].
  split; [vm_compute; reflexivity|].
  assert (∀ m : Fields,
            criterion m "label" latin1_cafe
            ↔ (m !! "label") ≫= (λ values, values !! latin1_cafe) = Some true)
    as Hcrit.
  { intros m. unfold criterion. split.
    - intros (values & -> & Hv). done.
    - destruct (m !! "label") as [values|]; [|done]. cbn. by exists values. }
  split; [|split].
  - intros Heq.
    apply (f_equal (λ m : Fields, (m !! "label") ≫= (λ values, values !! latin1_cafe)))
      in Heq.
    vm_compute in Heq. discriminate.
  - apply Hcrit. vm_compute. reflexivity.
  - rewrite Hcrit. vm_compute. discriminate.
Qed.


End examples.

(** * Further properties of the executor *)

Lemma cycle_trace_logged F m ops total evs res :
  cycle_trace F m ops total evs res →
  logged evs
  = ((λ r, logrus.Info [fmt.Str (summary r)]) <$> successes evs)
    ++ match res with
       | None => [total_entry (accumulate total (successes evs))]
       | Some _ => []
       end.
Proof.
  induction 1 as [total|op ops total a received err Hs
                 |op ops total a received r evs res Hs Hr _ IH].
  - done.
  - done.
  - unfold logged, successes in *. cbn. rewrite IH. done.
Qed.

(** [Sprintf] with a verb at the head of the format. *)
Lemma Sprintf_verb (v : ascii) (rest : string) o os :
  fmt.is_verb v = true →
  fmt.Sprintf (String "%" (String v rest)) (o :: os)
  = fmt.format_v o +:+ fmt.Sprintf rest os.
Proof.
  intros Hv.
  change (fmt.Sprintf (String "%" (String v rest)) (o :: os))
    with (if bool_decide ("%"%char = "%"%char) && fmt.is_verb v
          then fmt.format_v o +:+ fmt.Sprintf rest os
          else String "%" (fmt.Sprintf (String v rest) (o :: os))).
  by rewrite Hv.
Qed.

Lemma Sprintf_empty os : fmt.Sprintf "" os = "".
Proof. reflexivity. Qed.

(** The text of a summary line. *)
Lemma summary_text (r : Report) :
  summary r
  = match r with
    | RContainers r =>
        "Deleted Containers: " +:+ pretty (Z.of_nat (length (ContainersDeleted r)))
          +:+ ", Reclaimed Space: " +:+ pretty (c_SpaceReclaimed r)
    | RImages r =>
        "Deleted Images: " +:+ pretty (Z.of_nat (length (ImagesDeleted r)))
          +:+ ", Reclaimed Space: " +:+ pretty (i_SpaceReclaimed r)
    | RNetworks r =>
        "Deleted Networks: " +:+ pretty (Z.of_nat (length (NetworksDeleted r)))
    | RVolumes r =>
        "Deleted Volumes: " +:+ pretty (Z.of_nat (length (VolumesDeleted r)))
          +:+ ", Reclaimed Space: " +:+ pretty (v_SpaceReclaimed r)
    end.
Proof.
  destruct r; unfold summary;
    repeat (rewrite Sprintf_plain by done);
    rewrite Sprintf_verb by done;
    repeat (rewrite Sprintf_plain by done);
    rewrite ?Sprintf_verb by done;
    rewrite Sprintf_empty, append_empty_r;
    reflexivity.
Qed.

Section more_executor.
Context {stdlib : GoStdlib} {E : Type} {cli : APIClient E}.

(** X1.  The three prune functions that pass the filter on as it is: when the
    engine succeeds, the function returns the bytes that the engine reports
    (none for networks) and a summary with the number of deleted entities;
    when the engine fails, it returns zero bytes, an empty summary and the
    error of the engine.  The store is not touched. *)
Theorem plain_prune_functions_results ctx (all : bool) (F : Args) (w : World E) :
  (pruneContainers ctx all F w).1
  = match (ContainersPrune ctx (filters.contents (heap w) F) (engine w)).1 with
    | inl r =>
        (c_SpaceReclaimed r,
         "Deleted Containers: " +:+ pretty (Z.of_nat (length (ContainersDeleted r)))
           +:+ ", Reclaimed Space: " +:+ pretty (c_SpaceReclaimed r),
         None)
    | inr err => (0%N, "", Some err)
    end
  ∧ (pruneNetworks ctx all F w).1
    = match (NetworksPrune ctx (filters.contents (heap w) F) (engine w)).1 with
      | inl r =>
          (0%N,
           "Deleted Networks: " +:+ pretty (Z.of_nat (length (NetworksDeleted r))),
           None)
      | inr err => (0%N, "", Some err)
      end
  ∧ (pruneVolumes ctx all F w).1
    = match (VolumesPrune ctx (filters.contents (heap w) F) (engine w)).1 with
      | inl r =>
          (v_SpaceReclaimed r,
           "Deleted Volumes: " +:+ pretty (Z.of_nat (length (VolumesDeleted r)))
             +:+ ", Reclaimed Space: " +:+ pretty (v_SpaceReclaimed r),
           None)
      | inr err => (0%N, "", Some err)
      end
  ∧ heap (pruneContainers ctx all F w).2 = heap w
  ∧ heap (pruneNetworks ctx all F w).2 = heap w
  ∧ heap (pruneVolumes ctx all F w).2 = heap w.
Proof.
  unfold pruneContainers, pruneNetworks, pruneVolumes. run_state.
  rewrite !call_eq. cbn.
  repeat split.
  - destruct (ContainersPrune _ _ _) as [[r|err] e]; cbn; [|reflexivity].
    rewrite <-(summary_text (RContainers r)). unfold summary. reflexivity.
  - destruct (NetworksPrune _ _ _) as [[r|err] e]; cbn; [|reflexivity].
    rewrite <-(summary_text (RNetworks r)). unfold summary. reflexivity.
  - destruct (VolumesPrune _ _ _) as [[r|err] e]; cbn; [|reflexivity].
    rewrite <-(summary_text (RVolumes r)). unfold summary. reflexivity.
  - by destruct (ContainersPrune _ _ _) as [[r|err] e].
  - by destruct (NetworksPrune _ _ _) as [[r|err] e].
  - by destruct (VolumesPrune _ _ _) as [[r|err] e].
Qed.

(** X2.  The log lines of a cycle are the summaries of the operations that
    succeeded, in the order of the calls, followed by the line of the total
    exactly when [runPrune] returns no error; the total is the accumulator
    over the reports of all the calls.  So when an operation fails, what the
    earlier operations reclaimed has been logged, and no total is. *)
Theorem runPrune_logs ctx all (F : Args) (w : World E) evs :
  (fields F < length (heap w))%nat →
  trace (runPrune ctx all F w).2 = trace w ++ evs →
  logged evs
  = ((λ r, logrus.Info [fmt.Str (summary r)]) <$> successes evs)
    ++ match (runPrune ctx all F w).1 with
       | None => [total_entry (accumulate 0 (successes evs))]
       | Some _ => []
       end.
Proof.
  intros HF Htrace.
  destruct (runPrune_trace ctx all F w HF)
    as (res & evs' & extra & e & Hrun & Hshape).
  rewrite Hrun in *. cbn in *. apply app_inv_head in Htrace. subst evs'.
  by eapply cycle_trace_logged.
Qed.

(** X3.  Without any filter (the default of [--filter]), the copy of the filter
    does not go through [encoding/json]: the image operation receives the
    dangling criterion alone, whatever the codec does. *)
Theorem pruneImages_without_filters ctx (all : bool) (F : Args) (w : World E) :
  filters.contents (heap w) F = ∅ →
  ∃ newArgs,
    trace (pruneImages ctx all F w).2
    = trace w
      ++ [ECall OpImages newArgs
            {[ "dangling" := {[ (if all then "false" else "true") := true ]} ]}
            (reply_of RImages
               (ImagesPrune ctx
                  {[ "dangling" := {[ (if all then "false" else "true") := true ]} ]}
                  (engine w)).1)].
Proof.
  intros Hempty.
  assert (cloneArgs F (heap w) = (mkArgs (length (heap w)), heap w ++ [∅]))
    as Hclone.
  { rewrite <-Hempty. apply cloneArgs_faithful.
    rewrite Hempty. by rewrite map_size_empty. }
  rewrite (pruneImages_eq ctx all F w _ Hclone).
  exists (mkArgs (length (heap w))).
  cbn. unfold filters.fields_add. rewrite lookup_empty. by destruct all.
Qed.

End more_executor.

(** * Further properties of the coordinator *)

Section more_coordinator.
Context {stdlib : GoStdlib} {E : Type} {cli : APIClient E}.


(** X5.  With an interval of at most one second the timeout handed to
    [context.WithTimeout] is not positive: the context of a cycle is expired
    when it is made.  The coordinator can take the timeout branch before the
    worker has run at all; it then logs the warning and is back at the outer
    [select], and the worker is left where it was started. *)
Theorem short_interval_times_out_at_once flags args (s : Sched E) q :
  0 < intervalF flags <= time.Second →
  pc s = AtSelect →
  queue s = S q →
  ∃ s1 s2 ctx,
    exec flags args SelectQueue s = Some s1
    ∧ exec flags args CtxDone s1 = Some s2
    ∧ deadline ctx <= now s
    ∧ pc s1 = InCycle ctx (next_chan s)
    ∧ pc s2 = AtSelect
    ∧ workers s2 !! next_chan s = Some (mkWorker ctx (WRun 0 0))
    ∧ trace (world s2)
      = trace (world s)
        ++ [ELog (logrus.mkEntry logrus.InfoLevel "Start cleaning up unused data");
            ELog (logrus.mkEntry logrus.WarnLevel "context deadline exceeded")].
Proof.
  intros Hshort Hpc Hq.
  assert (Go.int64_sub (intervalF flags) time.Second
          = intervalF flags - time.Second) as Hsub.
  { unfold Go.int64_sub. apply int64_wrap_small.
    unfold Go.int64_range, time.Second in *. lia. }
  eexists _, _, (mkContext (now s + (intervalF flags - time.Second))).
  split; [cbn; by rewrite Hpc, Hq|]. cbn. unfold WithTimeout. rewrite Hsub. cbn.
  rewrite bool_decide_eq_true_2 by lia.
  split; [done|]. split; [lia|]. split; [done|]. split; [done|].
  cbn. split; [by rewrite lookup_insert_eq|].
  by rewrite <-(assoc_L (++)).
Qed.

(** X6.  The queue is a single slot: in every reachable state it holds at most
    one request, and it is empty while the coordinator is in a cycle. *)
Theorem queue_is_a_single_slot flags (conn : E + Go.error) t0 (s : Sched E) :
  reachable flags conn t0 s →
  (queue s ≤ 1)%nat ∧ ∀ ctx ch, pc s = InCycle ctx ch → queue s = 0%nat.
Proof.
  intros (args & s0 & Hstart & Hrtc).
  apply main_startup_Started in Hstart as (_ & Hpc & Hq & _).
  revert s Hrtc. apply rtc_ind_r.
  - rewrite Hq, Hpc. split; [lia|]. by intros ctx ch [=].
  - intros s1 s2 _ Hstep IH. by apply (queue_ok_step flags args s1 s2).
Qed.

End more_coordinator.

Section abandoned_workers.
Context {stdlib : GoStdlib} {E : Type} {cli : APIClient E}.
Variable flags : Flags.
Variable args : Args.

Lemma chan_fresh_step (s s' : Sched E) :
  chan_fresh s → step flags args s s' → chan_fresh s'.
Proof.
  intros [Hw Hpc] [a Hexec]. unfold chan_fresh in *.
  destruct a; cbn in Hexec.
  - case_bool_decide; [|done]. by simplify_eq.
  - case_bool_decide; [|done]. by simplify_eq.
  - destruct (pc s); [|done..]. destruct (tickerC s); [|done].
    simplify_eq. cbn. split; [done|]. by intros ctx ch [=].
  - destruct (pc s); [done| |done]. case_bool_decide; [|done].
    simplify_eq. cbn. split; [done|]. by intros ctx ch [=].
  - destruct (pc s); [|done..]. destruct (queue s) as [|q]; [done|].
    simplify_eq. cbn. split.
    + intros ch w Hl. destruct (decide (ch = next_chan s)) as [->|Hne]; [lia|].
      rewrite lookup_insert_ne in Hl by done. apply Hw in Hl. lia.
    + intros ctx ch [= _ <-]. lia.
  - destruct (pc s) as [| |ctx ch]; [done..|]. case_bool_decide; [|done].
    simplify_eq. cbn. split; [done|]. by intros ctx' ch' [=].
  - destruct (pc s) as [| |ctx ch]; [done..|].
    destruct (workers s !! ch) as [[? [? ?|?]]|] eqn:Hl; [done| |done].
    simplify_eq. cbn. split; [|by intros ctx' ch' [=]].
    intros ch' w Hl'. apply lookup_delete_Some in Hl' as [_ Hl']. by eapply Hw.
  - destruct (workers s !! errCh) as [[? [? ?|?]]|] eqn:Hl; [|done..].
    destruct (worker_iteration _ _ _ _ _ _). simplify_eq. cbn.
    split; [|done]. intros ch w1 Hl'.
    destruct (decide (ch = errCh)) as [->|Hne]; [by eapply Hw|].
    rewrite lookup_insert_ne in Hl' by done. by eapply Hw.
Qed.

Lemma abandoned_step (s s' : Sched E) ch :
  chan_fresh s → abandoned s ch → step flags args s s' → abandoned s' ch.
Proof.
  intros [Hfresh _] [[w Hw] Hpc] [a Hexec]. unfold abandoned in *.
  destruct a; cbn in Hexec.
  - case_bool_decide; [|done]. simplify_eq. cbn. eauto.
  - case_bool_decide; [|done]. simplify_eq. cbn. eauto.
  - destruct (pc s); [|done..]. destruct (tickerC s); [|done].
    simplify_eq. cbn. split; [eauto|]. by intros ctx [=].
  - destruct (pc s); [done| |done]. case_bool_decide; [|done].
    simplify_eq. cbn. split; [eauto|]. by intros ctx [=].
  - destruct (pc s); [|done..]. destruct (queue s) as [|q]; [done|].
    simplify_eq. cbn. apply Hfresh in Hw as Hlt. split.
    + rewrite lookup_insert_ne by lia. eauto.
    + intros ctx [= _ Heq]. lia.
  - destruct (pc s) as [| |ctx ch']; [done..|]. case_bool_decide; [|done].
    simplify_eq. cbn. split; [eauto|]. by intros ctx' [=].
  - destruct (pc s) as [| |ctx ch'] eqn:Hpcs; [done..|].
    destruct (workers s !! ch') as [[? [? ?|?]]|] eqn:Hl; [done| |done].
    simplify_eq. cbn. split; [|by intros ctx' [=]].
    rewrite lookup_delete_ne; [eauto|]. intros ->. by eapply Hpc.
  - destruct (workers s !! errCh) as [[? [? ?|?]]|] eqn:Hl; [|done..].
    destruct (worker_iteration _ _ _ _ _ _). simplify_eq. cbn.
    split; [|done].
    destruct (decide (ch = errCh)) as [->|Hne].
    + rewrite lookup_insert_eq. eauto.
    + rewrite lookup_insert_ne by done. eauto.
Qed.

Lemma abandoned_forever (s s' : Sched E) ch :
  chan_fresh s → abandoned s ch → rtc (step flags args) s s' →
  chan_fresh s' ∧ abandoned s' ch.
Proof.
  intros Hfresh Hab Hrtc. revert s' Hrtc. apply rtc_ind_r; [done|].
  intros s1 s2 _ Hstep [Hf1 Ha1].
  split; [by eapply chan_fresh_step|by eapply abandoned_step].
Qed.

End abandoned_workers.

Section leak.
Context {stdlib : GoStdlib} {E : Type} {cli : APIClient E}.

Lemma chan_fresh_reachable flags (conn : E + Go.error) t0 args (s0 s : Sched E) :
  main_startup flags conn t0 = Started args s0 →
  rtc (step flags args) s0 s →
  chan_fresh s.
Proof.
  intros Hstart Hrtc.
  apply main_startup_Started in Hstart as (_ & Hpc & _ & Hw & _).
  revert s Hrtc. apply rtc_ind_r.
  - split.
    + intros ch w. by rewrite Hw, lookup_empty.
    + intros ctx ch. by rewrite Hpc.
  - intros s1 s2 _ Hstep IH. by eapply chan_fresh_step.
Qed.

(** X7.  A worker that the coordinator leaves on a timeout is never taken up
    again.  When the deadline of the cycle has passed, the coordinator can
    return to the outer [select]; from then on, in every later state, the
    worker goroutine of that cycle is still there and the coordinator does
    not wait on its channel: what it sends is never received, and the
    goroutine does not end. *)
Theorem abandoned_worker_never_ends
    flags (conn : E + Go.error) t0 args (s0 s : Sched E) ctx ch w :
  main_startup flags conn t0 = Started args s0 →
  rtc (step flags args) s0 s →
  pc s = InCycle ctx ch →
  workers s !! ch = Some w →
  deadline ctx <= now s →
  ∃ s1,
    exec flags args CtxDone s = Some s1
    ∧ workers s1 = workers s
    ∧ ∀ s', rtc (step flags args) s1 s' →
        is_Some (workers s' !! ch) ∧ ∀ ctx', pc s' ≠ InCycle ctx' ch.
Proof.
  intros Hstart Hrtc Hpc Hw Hdue.
  pose proof (chan_fresh_reachable _ _ _ _ _ _ Hstart Hrtc) as Hfresh.
  assert (∃ s1, exec flags args CtxDone s = Some s1 ∧ workers s1 = workers s
                ∧ pc s1 = AtSelect) as (s1 & Hexec & Hws & Hpc1).
  { cbn. rewrite Hpc, bool_decide_eq_true_2 by done. by eexists. }
  exists s1. split; [done|]. split; [done|]. intros s' Hrtc'.
  eapply abandoned_forever; [| |exact Hrtc'].
  - eapply chan_fresh_step; [exact Hfresh|by exists CtxDone].
  - split; [rewrite Hws; by eexists|]. intros ctx'. by rewrite Hpc1.
Qed.

End leak.

Section filter_in_runs.
Context {stdlib : GoStdlib} {E : Type} {cli : APIClient E}.

Lemma ParseFlag_heap (arg : string) (prev : Args) (h : Heap) :
  (filters.ParseFlag arg prev h).2
  = if bool_decide (arg = "") || malformed arg then h
    else alter (filters.fields_add (filter_name arg) (filter_value arg))
           (fields prev) h.
Proof.
  unfold filters.ParseFlag, malformed, filter_name, filter_value.
  case_bool_decide; cbn; [done|].
  destruct (contains_eq arg); cbn; [|done]. by run_state.
Qed.

Lemma parse_filters_heap (fs : list string) (a : Args) (h : Heap) :
  existsb malformed fs = false →
  (parse_filters fs a h).2
  = foldl (λ h arg,
             if bool_decide (arg = "") then h
             else alter (filters.fields_add (filter_name arg) (filter_value arg))
                    (fields a) h) h fs.
Proof.
  revert h. induction fs as [|arg fs IH]; intros h Hok; cbn; [done|].
  cbn in Hok. apply orb_false_iff in Hok as [Harg Hfs].
  run_state.
  pose proof (ParseFlag_result arg a h) as Hres.
  pose proof (ParseFlag_heap arg a h) as Hheap.
  destruct (filters.ParseFlag arg a h) as [[a' err] h']. cbn in *.
  rewrite Harg in Hres, Hheap. injection Hres as -> ->.
  rewrite orb_false_r in Hheap. subst h'. by apply IH.
Qed.

Lemma parse_filters_length (fs : list string) (a : Args) (h : Heap) :
  existsb malformed fs = false →
  length (parse_filters fs a h).2 = length h.
Proof.
  intros Hok. rewrite parse_filters_heap by done.
  revert h. induction fs as [|arg fs IH]; intros h; cbn; [done|].
  cbn in Hok. apply orb_false_iff in Hok as [_ Hfs].
  rewrite IH by done. case_bool_decide; [done|]. by rewrite length_alter.
Qed.

Lemma parse_filters_criteria (fs : list string) (h : Heap) k v :
  existsb malformed fs = false →
  (0 < length h)%nat →
  criterion (filters.contents (parse_filters fs (mkArgs 0) h).2 (mkArgs 0)) k v
  ↔ criterion (filters.contents h (mkArgs 0)) k v
    ∨ ∃ arg, arg ∈ fs ∧ arg ≠ "" ∧ k = filter_name arg ∧ v = filter_value arg.
Proof.
  intros Hok. rewrite parse_filters_heap by done. clear Hok.
  revert h. induction fs as [|arg fs IH]; intros h Hlen; cbn.
  - split; [by left|]. intros [?|(arg & Hin & _)]; [done|].
    by apply elem_of_nil in Hin.
  - rewrite IH; clear IH.
    2: { case_bool_decide; [done|]. by rewrite length_alter. }
    case_bool_decide as Harg.
    + subst arg. split.
      * intros [?|(arg & Hin & ?)]; [by left|]. right. exists arg.
        split; [by right|done].
      * intros [?|(arg & Hin & Hne & ?)]; [by left|]. right. exists arg.
        apply elem_of_cons in Hin as [->|Hin]; [done|]. done.
    + assert (filters.contents
                (alter (filters.fields_add (filter_name arg) (filter_value arg))
                   0%nat h) (mkArgs 0)
              = filters.fields_add (filter_name arg) (filter_value arg)
                  (filters.contents h (mkArgs 0))) as ->.
      { unfold filters.contents. cbn. rewrite list_lookup_alter_eq.
        destruct (h !! 0%nat) eqn:Hh; [done|].
        apply lookup_ge_None in Hh. lia. }
      rewrite fields_add_criterion. split.
      * intros [[?|[-> ->]]|(arg' & Hin & ?)]; [by left| |].
        -- right. exists arg. split; [by left|done].
        -- right. exists arg'. split; [by right|done].
      * intros [?|(arg' & Hin & Hne & -> & ->)]; [by left; left|].
        apply elem_of_cons in Hin as [->|Hin]; [by left; right|].
        right. by exists arg'.
Qed.

(** X8.  The start-up collects the filter arguments in one filter set: after
    a successful start-up the criteria of the filter that every cycle uses are
    those of the non-empty [--filter] arguments, each split at its first [=],
    with the name trimmed and lowered and the value trimmed; an empty
    argument adds nothing. *)
Theorem startup_collects_filters flags (conn : E + Go.error) t0 args (s0 : Sched E) k v :
  main_startup flags conn t0 = Started args s0 →
  criterion (filters.contents (heap (world s0)) args) k v
  ↔ ∃ arg, arg ∈ filterF flags ∧ arg ≠ ""
           ∧ k = filter_name arg ∧ v = filter_value arg.
Proof.
  rewrite main_startup_cases.
  destruct (existsb malformed (filterF flags)) eqn:Hok; [done|].
  destruct conn as [engine0|e]; [|done].
  case_bool_decide; [done|]. intros [= <- <-]. cbn.
  rewrite parse_filters_criteria by (done || (cbn; lia)).
  split; [|by right]. intros [(values & Hk & _)|?]; [|done].
  unfold filters.contents in Hk. cbn in Hk. by rewrite lookup_empty in Hk.
Qed.

End filter_in_runs.

Section store_in_runs.
Context {stdlib : GoStdlib} {E : Type} {cli : APIClient E}.

(** A step of a worker only adds maps at the end of the store. *)
Lemma worker_iteration_heap flags args ctx i total (w : World E) :
  (fields args < length (heap w))%nat →
  ∃ extra, heap (worker_iteration flags args ctx i total w).2 = heap w ++ extra.
Proof.
  intros Halloc.
  destruct ((pruneFuncs : list PruneFunc) !! i) as [f|] eqn:Hi.
  - rewrite (worker_iteration_call _ _ _ _ _ _ f Hi).
    destruct (Forall2_lookup_r _ _ _ _ _ pruneFuncs_spec Hi) as (op & _ & Hspec).
    destruct (Hspec ctx (allF flags) args w Halloc)
      as (a & reply & extra & e & -> & _).
    exists extra. by destruct reply.
  - rewrite (worker_iteration_end _ _ _ _ _ _ Hi). exists []. cbn.
    by rewrite app_nil_r.
Qed.

Lemma step_heap flags args (s s' : Sched E) :
  (fields args < length (heap (world s)))%nat →
  step flags args s s' →
  ∃ extra, heap (world s') = heap (world s) ++ extra.
Proof.
  intros Halloc [a Hexec].
  destruct a; cbn in Hexec.
  - case_bool_decide; [|done]. simplify_eq. exists []. by rewrite app_nil_r.
  - case_bool_decide; [|done]. simplify_eq. exists []. by rewrite app_nil_r.
  - destruct (pc s); [|done..]. destruct (tickerC s); [|done].
    simplify_eq. exists []. by rewrite app_nil_r.
  - destruct (pc s); [done| |done]. case_bool_decide; [|done].
    simplify_eq. exists []. by rewrite app_nil_r.
  - destruct (pc s); [|done..]. destruct (queue s) as [|q]; [done|].
    simplify_eq. exists []. by rewrite app_nil_r.
  - destruct (pc s) as [| |ctx ch]; [done..|]. case_bool_decide; [|done].
    simplify_eq. exists []. by rewrite app_nil_r.
  - destruct (pc s) as [| |ctx ch]; [done..|].
    destruct (workers s !! ch) as [[? [? ?|?]]|]; [done| |done].
    simplify_eq. exists []. by rewrite app_nil_r.
  - destruct (workers s !! errCh) as [[ctx [i total|?]]|]; [|done..].
    destruct (worker_iteration_heap flags args ctx i total (world s) Halloc)
      as [extra Hextra].
    destruct (worker_iteration _ _ _ _ _ _). simplify_eq. by exists extra.
Qed.

(** X9.  The filter set that the start-up built is never modified: in every
    reachable state the store still begins with the maps it held at the
    start-up, and the filter of the cycles has the map it had then.  Cycles
    only add maps (the copies made for the image operation). *)
Theorem filter_set_is_never_modified
    flags (conn : E + Go.error) t0 args (s0 s : Sched E) :
  main_startup flags conn t0 = Started args s0 →
  rtc (step flags args) s0 s →
  heap (world s0) `prefix_of` heap (world s)
  ∧ filters.contents (heap (world s)) args
    = filters.contents (heap (world s0)) args.
Proof.
  intros Hstart Hrtc.
  assert (fields args < length (heap (world s0)))%nat as Halloc.
  { rewrite main_startup_cases in Hstart.
    destruct (existsb malformed (filterF flags)) eqn:Hok; [done|].
    destruct conn as [engine0|e]; [|done].
    case_bool_decide; [done|]. injection Hstart as <- <-. cbn.
    rewrite parse_filters_length by done. cbn. lia. }
  assert (∃ extra, heap (world s) = heap (world s0) ++ extra) as [extra Hextra].
  { revert s Hrtc. apply rtc_ind_r.
    - exists []. by rewrite app_nil_r.
    - intros s1 s2 _ Hstep [extra1 H1].
      destruct (step_heap flags args s1 s2) as [extra2 H2]; [|done|].
      + rewrite H1, length_app. lia.
      + exists (extra1 ++ extra2). by rewrite H2, H1, (assoc_L (++)). }
  rewrite Hextra. split; [by apply prefix_app_r|]. by apply contents_app_l.
Qed.

(** X10.  A cycle from its start to its end.  From the outer [select] with a
    request in the queue, the coordinator takes the request, the worker runs
    for at most five steps, and the coordinator receives the result: the
    world is then the world of [runPrune], run after the line of the start,
    with one more line, [Finished cleaning] or the error report; the worker
    is gone and the coordinator is back at the outer [select]. *)
Theorem cycle_runs_to_completion flags args (s : Sched E) q :
  pc s = AtSelect →
  queue s = S q →
  workers s !! next_chan s = None →
  let ctx := WithTimeout (now s) (Go.int64_sub (intervalF flags) time.Second) in
  let started :=
    (log (logrus.Info [fmt.Str "Start cleaning up unused data"]) (world s)).2 in
  let res := (runPrune ctx (allF flags) args started).1 in
  let finished := (runPrune ctx (allF flags) args started).2 in
  ∃ n, (n ≤ 5)%nat
       ∧ run flags args
           (SelectQueue :: replicate n (WorkerRuns (next_chan s)) ++ [ErrChRecv]) s
         = Some (mkSched (now s) (next_tick s) (tickerC s) q AtSelect (workers s)
                   (S (next_chan s))
                   (log (match res with
                         | Some e => logrus.Error [fmt.Str "Error occur: %v"; fmt.Err e]
                         | None => logrus.Info [fmt.Str "Finished cleaning"]
                         end) finished).2).
Proof.
  intros Hpc Hq Hfree ctx started res finished.
  set (s1 := mkSched (now s) (next_tick s) (tickerC s) q (InCycle ctx (next_chan s))
               (<[next_chan s := mkWorker ctx (WRun 0 0)]> (workers s))
               (S (next_chan s)) started).
  assert (exec flags args SelectQueue s = Some s1) as Hselect.
  { cbn. by rewrite Hpc, Hq. }
  destruct (worker_runs_runPrune flags args s1 (next_chan s) ctx)
    as (n & Hn & Hrun).
  { subst s1. cbn. by rewrite lookup_insert_eq. }
  exists n. split; [done|].
  rewrite (run_cons_Some _ _ _ _ _ _ Hselect).
  eapply run_app; [exact Hrun|].
  change (world s1) with started. subst res finished.
  generalize (runPrune ctx (allF flags) args started). intros [res finished].
  cbn [run]. unfold with_worker. subst s1. cbn.
  rewrite lookup_insert_eq. cbn.
  rewrite insert_insert_eq, delete_insert_eq, delete_id by done.
  by destruct res.
Qed.

End store_in_runs.

(** * The start-up, as its user sees it *)

Lemma Sprintf_literal_then_error (lit : string) (err : Go.error) :
  Forall (λ c, c ≠ "%"%char) (String.list_ascii_of_string lit) →
  fmt.Sprintf (lit +:+ "%v") [fmt.Err err] = lit +:+ err.
Proof.
  induction lit as [|c lit IH]; intros Hlit.
  - change (fmt.Sprintf ("" +:+ "%v") [fmt.Err err]) with (err +:+ "").
    by rewrite append_empty_r.
  - cbn in Hlit. apply Forall_cons in Hlit as [Hc Hlit].
    rewrite !append_cons.
    destruct lit as [|c' lit].
    + change ("" +:+ "%v") with "%v". rewrite Sprintf_plain by done.
      f_equal. change (fmt.Sprintf "%v" [fmt.Err err]) with (err +:+ "").
      by rewrite append_empty_r.
    + rewrite append_cons in *. rewrite Sprintf_plain by done. f_equal.
      by apply IH.
Qed.

Section startup_report.
Context {stdlib : GoStdlib} {E : Type} {cli : APIClient E}.

(** X11.  What the start-up does, case by case and in the order of the code.
    A malformed [--filter] argument (not empty and without [=]) ends the
    program with exit code 1 and the fatal line of [ParseFlag]'s error, even
    when the engine cannot be reached as well; otherwise a failure of
    [NewEnvClient] ends it with exit code 1 and the fatal line of that error;
    otherwise an interval that is not positive makes [time.NewTicker] panic;
    otherwise the loop is entered with one request in the queue, the first
    tick one interval ahead, no worker and nothing logged. *)
Theorem startup_outcomes flags (conn : E + Go.error) t0 :
  main_startup flags conn t0
  = if existsb malformed (filterF flags) then
      Exited 1
        (logrus.mkEntry logrus.FatalLevel
           "Failed to parse filter argument: bad format of filter (expected name=value)")
    else match conn with
         | inr e =>
             Exited 1
               (logrus.mkEntry logrus.FatalLevel
                  ("Failed to create Docker client: " +:+ e))
         | inl engine0 =>
             if bool_decide (intervalF flags <= 0) then
               Panicked "non-positive interval for NewTicker"
             else
               Started (mkArgs 0)
                 (mkSched t0 (t0 + intervalF flags) false 1 AtSelect ∅ 0
                    (mkWorld (parse_filters (filterF flags) (mkArgs 0) [∅]).2
                       engine0 []))
         end.
Proof.
  rewrite main_startup_cases. cbv zeta.
  destruct (existsb malformed (filterF flags)).
  - change (logrus.Fatalf "Failed to parse filter argument: %v"
              [fmt.Err filters.ErrBadFormat])
      with (logrus.mkEntry logrus.FatalLevel
              (fmt.Sprintf ("Failed to parse filter argument: " +:+ "%v")
                 [fmt.Err filters.ErrBadFormat])).
    rewrite Sprintf_literal_then_error by (repeat constructor; discriminate).
    reflexivity.
  - destruct conn as [engine0|e]; [done|].
    change (logrus.Fatalf "Failed to create Docker client: %v" [fmt.Err e])
      with (logrus.mkEntry logrus.FatalLevel
              (fmt.Sprintf ("Failed to create Docker client: " +:+ "%v")
                 [fmt.Err e])).
    rewrite Sprintf_literal_then_error by (repeat constructor; discriminate).
    reflexivity.
Qed.

End startup_report.

(** * The further properties on the examples *)

Section more_examples.
Import Fixtures Examples.

(** With the broken engine the cycle logs nothing: no operation succeeded and
    there is no total. *)
Lemma runPrune_logs_witness :
  logged [ECall OpContainers staging_args staging (inr daemon_down)]
  = ((λ r, logrus.Info [fmt.Str (summary r)])
       <$> successes [ECall OpContainers staging_args staging (inr daemon_down)])
    ++ match (runPrune (stdlib:=staging_stdlib) ctx0 false staging_args
                broken_world).1 with
       | None =>
           [total_entry
              (accumulate 0
                 (successes
                    [ECall OpContainers staging_args staging (inr daemon_down)]))]
       | Some _ => []
       end.
Proof.
  apply (runPrune_logs (stdlib:=staging_stdlib) ctx0 false staging_args
           broken_world).
  - cbn. lia.
  - vm_compute. reflexivity.
Defined.

(** Without a filter the image operation gets [dangling=true], also with a
    codec that rejects every document. *)
Lemma pruneImages_without_filters_witness :
  ∃ newArgs,
    trace (pruneImages (stdlib:=rejecting_stdlib) ctx0 false (mkArgs 0)
             empty_world).2
    = trace empty_world
      ++ [ECall OpImages newArgs {[ "dangling" := {[ "true" := true ]} ]}
            (reply_of RImages
               (ImagesPrune ctx0 {[ "dangling" := {[ "true" := true ]} ]}
                  (engine empty_world)).1)].
Proof.
  apply (pruneImages_without_filters (stdlib:=rejecting_stdlib) ctx0 false
           (mkArgs 0) empty_world).
  reflexivity.
Defined.


(** With [--interval 1ns] the first cycle can time out before its worker has
    made a call. *)
Lemma short_interval_times_out_at_once_witness :
  ∃ s1 s2 ctx,
    exec (stdlib:=staging_stdlib) flags_1ns (mkArgs 0) SelectQueue start_1ns
    = Some s1
    ∧ exec (stdlib:=staging_stdlib) flags_1ns (mkArgs 0) CtxDone s1 = Some s2
    ∧ deadline ctx <= now start_1ns
    ∧ pc s1 = InCycle ctx (next_chan start_1ns)
    ∧ pc s2 = AtSelect
    ∧ workers s2 !! next_chan start_1ns = Some (mkWorker ctx (WRun 0 0))
    ∧ trace (world s2)
      = trace (world start_1ns)
        ++ [ELog (logrus.mkEntry logrus.InfoLevel "Start cleaning up unused data");
            ELog (logrus.mkEntry logrus.WarnLevel "context deadline exceeded")].
Proof.
  apply (short_interval_times_out_at_once (stdlib:=staging_stdlib) flags_1ns
           (mkArgs 0) start_1ns 0).
  - unfold flags_1ns, time.Second, time.Nanosecond. cbn. lia.
  - reflexivity.
  - reflexivity.
Defined.

(** The state after [overlap_schedule] is in a cycle, with an empty queue. *)
Lemma queue_is_a_single_slot_witness :
  ∃ s,
    reachable (stdlib:=staging_stdlib) flags_2s (inl staging_engine) 0 s
    ∧ now s = 2000000000
    ∧ (queue s ≤ 1)%nat
    ∧ ∀ ctx ch, pc s = InCycle ctx ch → queue s = 0%nat.
Proof.
  destruct overlap_reachable as (s & Hreach & Hnow & _).
  exists s. split; [exact Hreach|]. split; [exact Hnow|].
  exact (queue_is_a_single_slot (stdlib:=staging_stdlib) flags_2s
           (inl staging_engine) 0 s Hreach).
Defined.

(** The first cycle of [flags_2s], one second after its start. *)
Lemma deadline_reached_run :
  ∃ s,
    run (stdlib:=staging_stdlib) flags_2s (mkArgs 0)
      [SelectQueue; TimePasses time.Second] start_2s = Some s
    ∧ pc s = InCycle (mkContext 1000000000) 0
    ∧ workers s !! 0%nat = Some (mkWorker (mkContext 1000000000) (WRun 0 0))
    ∧ now s = 1000000000.
Proof.
  eexists. split; [vm_compute; reflexivity|].
  split; [vm_compute; reflexivity|].
  split; vm_compute; reflexivity.
Qed.

(** The worker of the first cycle of [flags_2s], left at the deadline, stays
    for ever. *)
Lemma abandoned_worker_never_ends_witness :
  ∃ s s1,
    rtc (step (stdlib:=staging_stdlib) flags_2s (mkArgs 0)) start_2s s
    ∧ exec (stdlib:=staging_stdlib) flags_2s (mkArgs 0) CtxDone s = Some s1
    ∧ workers s1 = workers s
    ∧ ∀ s', rtc (step (stdlib:=staging_stdlib) flags_2s (mkArgs 0)) s1 s' →
        is_Some (workers s' !! 0%nat) ∧ ∀ ctx', pc s' ≠ InCycle ctx' 0.
Proof.
  destruct deadline_reached_run as (s & Hrun & Hpc & Hw & Hnow).
  pose proof (run_rtc (stdlib:=staging_stdlib) flags_2s (mkArgs 0) _ _ _ Hrun)
    as Hrtc.
  destruct (abandoned_worker_never_ends (stdlib:=staging_stdlib) flags_2s
              (inl staging_engine) 0 (mkArgs 0) start_2s s
              (mkContext 1000000000) 0 (mkWorker (mkContext 1000000000) (WRun 0 0)))
    as (s1 & Hexec & Hws & Hlater).
  - vm_compute. reflexivity.
  - exact Hrtc.
  - exact Hpc.
  - exact Hw.
  - rewrite Hnow. cbn. lia.
  - exists s, s1. split; [exact Hrtc|]. split; [exact Hexec|].
    split; [exact Hws|exact Hlater].
Defined.

(** The start-up with [--filter label=env=staging] has the criterion
    [label: env=staging]. *)
Lemma startup_collects_filters_witness :
  ∃ s0,
    main_startup (stdlib:=staging_stdlib) staging_flags (inl staging_engine) 0
    = Started (mkArgs 0) s0
    ∧ (criterion (filters.contents (heap (world s0)) (mkArgs 0))
         "label" "env=staging"
       ↔ ∃ arg, arg ∈ filterF staging_flags ∧ arg ≠ ""
                ∧ "label" = filter_name (stdlib:=staging_stdlib) arg
                ∧ "env=staging" = filter_value (stdlib:=staging_stdlib) arg).
Proof.
  eexists. split; [vm_compute; reflexivity|].
  apply (startup_collects_filters (stdlib:=staging_stdlib) staging_flags
           (inl staging_engine) 0).
  vm_compute. reflexivity.
Defined.

(** After [overlap_schedule] the filter of the start-up is as it was. *)
Lemma filter_set_is_never_modified_witness :
  ∃ s,
    run (stdlib:=staging_stdlib) flags_2s (mkArgs 0) overlap_schedule start_2s
    = Some s
    ∧ heap (world start_2s) `prefix_of` heap (world s)
    ∧ filters.contents (heap (world s)) (mkArgs 0)
      = filters.contents (heap (world start_2s)) (mkArgs 0).
Proof.
  destruct overlap_run as (s0 & s & Hstart & Hrun & _).
  assert (s0 = start_2s) as Hs0.
  { assert (main_startup (stdlib:=staging_stdlib) flags_2s (inl staging_engine) 0
            = Started (mkArgs 0) start_2s) as Hstart' by (vm_compute; reflexivity).
    rewrite Hstart in Hstart'. by injection Hstart'. }
  subst s0. exists s. split; [exact Hrun|].
  apply (filter_set_is_never_modified (stdlib:=staging_stdlib) flags_2s
           (inl staging_engine) 0 (mkArgs 0) start_2s s Hstart).
  by eapply run_rtc.
Defined.

(** The first cycle of [flags_2s] with the staging engine, run to its end. *)
Lemma cycle_runs_to_completion_witness :
  ∃ n, (n ≤ 5)%nat
       ∧ run (stdlib:=staging_stdlib) flags_2s (mkArgs 0)
           (SelectQueue :: replicate n (WorkerRuns (next_chan start_2s))
              ++ [ErrChRecv]) start_2s
         = Some (mkSched (now start_2s) (next_tick start_2s) (tickerC start_2s)
                   0 AtSelect (workers start_2s) (S (next_chan start_2s))
                   (log (match (runPrune (stdlib:=staging_stdlib)
                                  (WithTimeout (now start_2s)
                                     (Go.int64_sub (intervalF flags_2s) time.Second))
                                  (allF flags_2s) (mkArgs 0)
                                  (log (logrus.Info
                                          [fmt.Str "Start cleaning up unused data"])
                                     (world start_2s)).2).1 with
                         | Some e =>
                             logrus.Error [fmt.Str "Error occur: %v"; fmt.Err e]
                         | None => logrus.Info [fmt.Str "Finished cleaning"]
                         end)
                      (runPrune (stdlib:=staging_stdlib)
                         (WithTimeout (now start_2s)
                            (Go.int64_sub (intervalF flags_2s) time.Second))
                         (allF flags_2s) (mkArgs 0)
                         (log (logrus.Info
                                 [fmt.Str "Start cleaning up unused data"])
                            (world start_2s)).2).2).2).
Proof.
  exact (cycle_runs_to_completion (stdlib:=staging_stdlib) flags_2s (mkArgs 0)
           start_2s 0 eq_refl eq_refl eq_refl).
Defined.

End more_examples.
